(** * A genetic algorithm for the travelling salesman problem

    Shallow embedding of [GA/GA doganer kartum.py] and the properties of
    its file reader, tour constructors, fitness function, selection,
    crossover, mutation and evolution loop.

    Four things of the Python program are made explicit here.

    - Numbers.  Coordinates, distances and scores are Python floats.  The
      functions are written once over an interface [Numeric] that lists
      the operations the program uses; [binary64] instantiates it with the
      IEEE 754 double precision numbers of the kernel (what a Python float
      is), [exact_Z] with exact integer arithmetic.
    - Exceptions.  A computation returns [Ok v] or [Raise e].
    - The module [random].  The generator is a state threaded through
      every function that draws from it; the state is the sequence of raw
      outputs the generator still has to deliver.
    - The file.  [read_tsp_file] is a function of the lines of the file;
      [int] and [float] are parameters of it.

    Lists are values here.  The program shares them by reference, but it
    only ever mutates a list it has just built ([swap_mutation] swaps in
    the child that the crossover made, [greedy_algorithm] and
    [random_algorithm] work on a copy), so no other name sees a change.
    Sizes ([tournament_size], [initial_population_size], [epochs]) are
    natural numbers; a negative size behaves like a size above the
    population for [random.sample] and like 0 for [range]. *)

From Stdlib Require Import ZArith Floats Lia Ascii.
From stdpp Require Import base list strings.

(** ** Exceptions *)

Inductive exn :=
  | ValueError
  | IndexError
  | TypeError
  | OverflowError
  | FuelExhausted. (* not a Python exception: the bound of a modelled
                      [while] loop was reached (shown unreachable) *)

Inductive res (A : Type) :=
  | Ok (a : A)
  | Raise (e : exn).
Arguments Ok {A} a.
Arguments Raise {A} e.

(** ** Numbers *)

Class Numeric := {
  num : Type;
  num_zero : num;                    (* 0 *)
  num_one : num;                     (* 1 *)
  num_inf : num;                     (* float('inf') *)
  num_add : num → num → num;         (* a + b *)
  num_sub : num → num → num;         (* a - b *)
  num_sqr : num → num;               (* a ** 2 *)
  num_sqrt : num → num;              (* math.sqrt(a) *)
  num_div : num → num → num;         (* a / b *)
  num_ltb : num → num → bool;        (* a < b *)
  num_eqb : num → num → bool;        (* a == b *)
  num_of_nat : nat → num;            (* an int such as len(scores), as a number *)
  num_unit : nat → num               (* the number in [0, 1) that random.random()
                                        builds from a raw output of the generator *)
}.

Declare Scope num_scope.
Delimit Scope num_scope with num.
Infix "+" := num_add : num_scope.
Infix "-" := num_sub : num_scope.
Infix "/" := num_div : num_scope.
Infix "<?" := num_ltb : num_scope.
Infix "=?" := num_eqb : num_scope.

(** IEEE 754 binary64.  [x ** 2] is taken as the correctly rounded product
    [x * x]; CPython calls the C library's [pow], which can differ from it
    in the last bit.  It is exact on every number the examples below
    square.  Where the square of a finite number overflows, Python raises
    OverflowError and this instance gives [inf]: what is proved below of
    floats assumes finite distances or lengths, or is about the runs that
    return, so that it does not depend on the difference. *)
Definition binary64 : Numeric := {|
  num := float;
  num_zero := 0%float;
  num_one := 1%float;
  num_inf := infinity;
  num_add := PrimFloat.add;
  num_sub := PrimFloat.sub;
  num_sqr := λ a, PrimFloat.mul a a;
  num_sqrt := PrimFloat.sqrt;
  num_div := PrimFloat.div;
  num_ltb := PrimFloat.ltb;
  num_eqb := PrimFloat.eqb;
  num_of_nat := λ n, PrimFloat.of_uint63 (Uint63.of_Z (Z.of_nat n));
  num_unit := λ k,
    PrimFloat.mul
      (PrimFloat.of_uint63 (Uint63.of_Z (Z.of_nat k mod 2 ^ 53)))
      0x1p-53%float
|}.

(** Exact integer arithmetic (integer square root, a sentinel above every
    length that is looked at).  It is not the program's arithmetic: it
    shows that the laws of exact addition are those of some arithmetic,
    and gives the examples of the reader their numbers. *)
Definition exact_Z : Numeric := {|
  num := Z;
  num_zero := 0%Z;
  num_one := 1%Z;
  num_inf := (2 ^ 1024)%Z;
  num_add := Z.add;
  num_sub := Z.sub;
  num_sqr := λ a, (a * a)%Z;
  num_sqrt := Z.sqrt;
  num_div := Z.div;
  num_ltb := Z.ltb;
  num_eqb := Z.eqb;
  num_of_nat := Z.of_nat;
  num_unit := λ _, 0%Z
|}.

(** ** The random generator *)

Definition rng := list nat.

Definition M (A : Type) : Type := rng → res (A * rng).

Definition ret {A} (a : A) : M A := λ g, Ok (a, g).

Definition bind {A B} (m : M A) (k : A → M B) : M B :=
  λ g, match m g with
       | Ok (a, g') => k a g'
       | Raise e => Raise e
       end.

Definition raise {A} (e : exn) : M A := λ _, Raise e.

Definition lift {A} (r : res A) : M A :=
  λ g, match r with Ok a => Ok (a, g) | Raise e => Raise e end.

Notation "x <- m ;; k" := (bind m (λ x, k))
  (at level 100, m at next level, right associativity, only parsing).

(** The next raw output of the generator (an exhausted sequence goes on
    with zeros). *)
Definition next_raw : M nat :=
  λ g, match g with
       | [] => Ok (0, [])
       | k :: g' => Ok (k, g')
       end.

(** [random._randbelow(n)]: an int in [range(n)], for [n > 0]. *)
Definition randbelow (n : nat) : M nat :=
  k <- next_raw ;; ret (k mod n).

(** ** Lists as Python uses them *)

(** The position an index [i] denotes in a sequence of length [len]:
    negative indices count from the end; [None] is out of range. *)
Definition py_index (len : nat) (i : Z) : option nat :=
  let j := if (i <? 0)%Z then (i + Z.of_nat len)%Z else i in
  if ((0 <=? j) && (j <? Z.of_nat len))%Z then Some (Z.to_nat j) else None.

(** [x[i], x[j] = x[j], x[i]] *)
Definition swap_items {A} (x : list A) (i j : nat) : res (list A) :=
  match x !! j, x !! i with
  | Some xj, Some xi => Ok (<[j := xi]> (<[i := xj]> x))
  | _, _ => Raise IndexError
  end.

(** [random.shuffle(x)]:
<<
    for i in reversed(range(1, len(x))):
        j = randbelow(i + 1)
        x[i], x[j] = x[j], x[i]
>> *)
Fixpoint shuffle_loop {A} (i : nat) (x : list A) : M (list A) :=
  match i with
  | 0 => ret x
  | S i' =>
      j <- randbelow (S i) ;;
      x' <- lift (swap_items x i j) ;;
      shuffle_loop i' x'
  end.

Definition shuffle {A} (x : list A) : M (list A) :=
  shuffle_loop (length x - 1) x.

(** [random.sample(population, k)], by selection from a pool:
<<
    n = len(population)
    if not 0 <= k <= n: raise ValueError
    result = [None] * k
    pool = list(population)
    for i in range(k):
        j = randbelow(n - i)
        result[i] = pool[j]
        pool[j] = pool[n - i - 1]
    return result
>>
    (for a large population CPython tracks the chosen positions in a set
    instead; it returns the same kind of result, [k] items from pairwise
    different positions). *)
Fixpoint sample_loop {A} (k i n : nat) (pool result : list A) : M (list A) :=
  match k with
  | 0 => ret result
  | S k' =>
      j <- randbelow (n - i) ;;
      match pool !! j, pool !! (n - i - 1) with
      | Some x, Some y => sample_loop k' (S i) n (<[j := y]> pool) (result ++ [x])
      | _, _ => raise IndexError
      end
  end.

Definition random_sample {A} (population : list A) (k : nat) : M (list A) :=
  let n := length population in
  if decide (k ≤ n) then sample_loop k 0 n population [] else raise ValueError.

(** ** The program *)

(** A city is the tuple [(city_id, x, y)]; a tour is a list of cities. *)
Record city {N : Numeric} := City { city_id : Z; city_x : num; city_y : num }.

Abbreviation tour := (list city).

(** ** Reading the cities

    [read_tsp_file] as a function of the lines that [f.readlines()]
    returns.  A [str] is the string of its characters, each a code point
    below 256.  [int] and [float] are parameters of the reader: they give
    the number a string denotes, or nothing where Python raises
    ValueError. *)

(** [c.isspace()] for one character: the code points 9 to 13, 28 to 32,
    133 and 160. *)
Definition is_space (c : ascii) : bool :=
  let n := nat_of_ascii c in
  ((9 <=? n) && (n <=? 13)) || ((28 <=? n) && (n <=? 32))
  || (n =? 133) || (n =? 160).

Fixpoint lstrip (l : list ascii) : list ascii :=
  match l with
  | c :: l' => if is_space c then lstrip l' else l
  | [] => []
  end.

(** [s.strip()] *)
Definition str_strip (s : string) : string :=
  String.string_of_list_ascii
    (reverse (lstrip (reverse (lstrip (String.list_ascii_of_string s))))).

(** [s.split()]: the maximal runs of characters that are not whitespace;
    [word] is the run being read, last character first. *)
Fixpoint split_loop (word l : list ascii) : list string :=
  match l with
  | [] =>
      match word with
      | [] => []
      | _ => [String.string_of_list_ascii (reverse word)]
      end
  | c :: l' =>
      if is_space c then
        match word with
        | [] => split_loop [] l'
        | _ => String.string_of_list_ascii (reverse word) :: split_loop [] l'
        end
      else split_loop (c :: word) l'
  end.

Definition str_split (s : string) : list string :=
  split_loop [] (String.list_ascii_of_string s).

Section Reader.
Context {N : Numeric}.
Variable py_int : string → option Z.     (* int(s) *)
Variable py_float : string → option num. (* float(s) *)

(** Lines 21-25: the three conversions and the tuple, for a line of three
    fields; a line with another number of fields gives no city. *)
Definition parse_city (parts : list string) : res (option city) :=
  match parts with
  | [p0; p1; p2] =>
      match py_int p0 with
      | None => Raise ValueError
      | Some city_id =>
          match py_float p1 with
          | None => Raise ValueError
          | Some x =>
              match py_float p2 with
              | None => Raise ValueError
              | Some y => Ok (Some (@City N city_id x y))
              end
          end
      end
  | _ => Ok None
  end.

(** The [for line in lines:] loop. *)
Fixpoint read_loop (lines : list string) (reading_coordinates : bool)
    (cities : list city) : res (list city) :=
  match lines with
  | [] => Ok cities
  | line :: lines' =>
      let line := str_strip line in
      if decide (line = "NODE_COORD_SECTION") then read_loop lines' true cities
      else if decide (line = "EOF") then Ok cities
      else if reading_coordinates && negb (bool_decide (line = "")) then
        match parse_city (str_split line) with
        | Raise e => Raise e
        | Ok (Some c) => read_loop lines' reading_coordinates (cities ++ [c])
        | Ok None => read_loop lines' reading_coordinates cities
        end
      else read_loop lines' reading_coordinates cities
  end.

Definition read_tsp_file (lines : list string) : res (list city) :=
  read_loop lines false [].

(** What a line of the coordinate section stands for: a city, or nothing. *)
Definition line_city (line : string) : res (option city) :=
  parse_city (str_split (str_strip line)).

End Reader.

(** A line made of fields: each field is a run [f.2] of characters that
    are not whitespace, after a run [f.1] of whitespace; [trail] is the
    whitespace that ends the line. *)
Definition fields_chars (fs : list (list ascii * list ascii)) (trail : list ascii)
    : list ascii :=
  foldr (λ f l, f.1 ++ f.2 ++ l) trail fs.

Definition fields_line (fs : list (list ascii * list ascii)) (trail : list ascii)
    : string :=
  String.string_of_list_ascii (fields_chars fs trail).

Definition field_words (fs : list (list ascii * list ascii)) : list string :=
  (λ f, String.string_of_list_ascii f.2) <$> fs.

Record well_formed_fields (fs : list (list ascii * list ascii))
    (trail : list ascii) : Prop := {
  separators_space : Forall (λ f, Forall (λ c, is_space c = true) f.1) fs;
  words_not_space : Forall (λ f, Forall (λ c, is_space c = false) f.2) fs;
  words_not_empty : Forall (λ f, f.2 ≠ []) fs;
  separators_not_empty : Forall (λ f, f.1 ≠ []) (tail fs);
  trail_space : Forall (λ c, is_space c = true) trail
}.

(** ** Tours and the evolution loop *)

Section Program.
Context {N : Numeric}.
Local Open Scope num_scope.

(** [==] on two such tuples.  ([in] and [list.remove] also accept an item
    that is the very same object; this differs from [==] only for a city
    that is not equal to itself, one with a NaN coordinate.) *)
Definition city_eqb (a b : city) : bool :=
  (city_id a =? city_id b)%Z && (city_x a =? city_x b) && (city_y a =? city_y b).

(** [c in l] *)
Definition city_in (c : city) (l : list city) : bool :=
  existsb (λ x, city_eqb x c) l.

Definition euclidean_distance (city1 city2 : city) : num :=
  num_sqrt (num_sqr (city_x city2 - city_x city1) + num_sqr (city_y city2 - city_y city1)).

(** The inner [for] loop of [greedy_algorithm]: the state is
    [(nearest_city, min_distance)]. *)
Definition nearest_step (current_city : city) (st : option city * num) (c : city)
    : option city * num :=
  let distance := euclidean_distance current_city c in
  if distance <? st.2 then (Some c, distance) else st.

Definition nearest_scan (current_city : city) (unvisited : list city)
    : option city * num :=
  foldl (nearest_step current_city) (None, num_inf) unvisited.

(** [l.remove(c)]: drops the first item equal to [c]; [None] when there is
    none (Python raises ValueError). *)
Fixpoint list_remove (c : city) (l : list city) : option (list city) :=
  match l with
  | [] => None
  | x :: l' => if city_eqb x c then Some l' else (x ::.) <$> list_remove c l'
  end.

(** The [while unvisited:] loop. *)
Fixpoint greedy_loop (fuel : nat) (current_city : city) (unvisited route : list city)
    : res (list city) :=
  match unvisited with
  | [] => Ok route
  | _ :: _ =>
      match fuel with
      | 0 => Raise FuelExhausted
      | S fuel' =>
          match nearest_scan current_city unvisited with
          | (None, _) => Raise ValueError (* unvisited.remove(None) *)
          | (Some nearest_city, _) =>
              match list_remove nearest_city unvisited with
              | None => Raise ValueError
              | Some unvisited' =>
                  greedy_loop fuel' nearest_city unvisited' (route ++ [nearest_city])
              end
          end
      end
  end.

(** An int that fits the C type [Py_ssize_t]. *)
Definition fits_ssize (i : Z) : bool := ((- 2 ^ 63 <=? i) && (i <? 2 ^ 63))%Z.

(** [unvisited.pop(start)] refuses an index that does not fit [Py_ssize_t]
    with OverflowError, and another index out of range with IndexError.
    (A list has fewer than [2 ^ 63] items, so an index in range fits.) *)
Definition greedy_algorithm (cities : list city) (start : Z) : res (list city) :=
  match py_index (length cities) start with
  | None => if fits_ssize start then Raise IndexError else Raise OverflowError
  | Some i =>
      match cities !! i with
      | None => Raise IndexError
      | Some current_city =>
          let unvisited := delete i cities in
          greedy_loop (length unvisited) current_city unvisited [current_city]
      end
  end.

Definition random_algorithm (cities : list city) : M (list city) :=
  shuffle cities.

(** The [for] loop of [calculate_route_length]: [length] after the edges
    between consecutive cities of [route] have been added to it. *)
Fixpoint add_edges (length : num) (route : list city) : num :=
  match route with
  | a :: (b :: _) as rest => add_edges (length + euclidean_distance a b) rest
  | _ => length
  end.

Definition calculate_route_length (route : list city) : res num :=
  match route, last route with
  | first :: _, Some final =>
      Ok (add_edges num_zero route + euclidean_distance final first)
  | _, _ => Raise IndexError (* route[-1] of an empty list *)
  end.

Definition swap_mutation (route : list city) (mutation_probability : num)
    : M (list city) :=
  k <- next_raw ;;
  if num_unit k <? mutation_probability then
    idx <- random_sample (seq 0 (length route)) 2 ;;
    match idx with
    | [idx1; idx2] => lift (swap_items route idx1 idx2)
    | _ => raise ValueError
    end
  else ret route.

(** The [for sol in selected:] loop of [tournament_selection]: the state is
    [(best, best_score)]. *)
Fixpoint tournament_loop (selected : list tour) (best : option tour) (best_score : num)
    : res (option tour) :=
  match selected with
  | [] => Ok best
  | sol :: selected' =>
      match calculate_route_length sol with
      | Raise e => Raise e
      | Ok curr_score =>
          if curr_score <? best_score
          then tournament_loop selected' (Some sol) curr_score
          else tournament_loop selected' best best_score
      end
  end.

Definition tournament_selection (population : list tour) (tournament_size : nat)
    : M (option tour) :=
  selected <- random_sample population tournament_size ;;
  lift (tournament_loop selected None num_inf).

(** Lines 81-82 of [create_new_epoch]:
<<
    split_point = len(parent1) // 2
    child = parent1[:split_point] + [city for city in parent2 if city not in parent1[:split_point]]
>> *)
Definition crossover (parent1 parent2 : tour) : tour :=
  let split_point := (length parent1 / 2)%nat in
  take split_point parent1
    ++ filter (λ c, city_in c (take split_point parent1) = false) parent2.

(** One pass of the [for] loop of [create_new_epoch];
    [tournament_selection] is called with its default size, 7. *)
Definition make_child (population : list tour) (mutation_probability : num) : M tour :=
  parent1 <- tournament_selection population 7 ;;
  parent2 <- tournament_selection population 7 ;;
  match parent1, parent2 with
  | Some parent1, Some parent2 =>
      swap_mutation (crossover parent1 parent2) mutation_probability
  | _, _ => raise TypeError (* len(None), or iterating over None *)
  end.

Fixpoint repeatM {A} (n : nat) (m : M A) : M (list A) :=
  match n with
  | 0 => ret []
  | S n' => a <- m ;; l <- repeatM n' m ;; ret (a :: l)
  end.

Definition create_new_epoch (population : list tour) (mutation_probability : num)
    : M (list tour) :=
  repeatM (length population) (make_child population mutation_probability).

(** [[calculate_route_length(individual) for individual in population]] *)
Fixpoint route_lengths (population : list tour) : res (list num) :=
  match population with
  | [] => Ok []
  | individual :: population' =>
      match calculate_route_length individual with
      | Raise e => Raise e
      | Ok s =>
          match route_lengths population' with
          | Raise e => Raise e
          | Ok scores => Ok (s :: scores)
          end
      end
  end.

(** [min(scores)] and [max(scores)]: the first item is kept until a later
    one is smaller (larger); ValueError on an empty list. *)
Definition py_min (scores : list num) : res num :=
  match scores with
  | [] => Raise ValueError
  | s :: scores' => Ok (foldl (λ m x, if x <? m then x else m) s scores')
  end.

Definition py_max (scores : list num) : res num :=
  match scores with
  | [] => Raise ValueError
  | s :: scores' => Ok (foldl (λ m x, if m <? x then x else m) s scores')
  end.

(** [sum(scores)] *)
Definition py_sum (scores : list num) : num := foldl num_add num_zero scores.

(** [scores.index(v)]: the first position holding an item equal to [v]. *)
Fixpoint py_list_index (scores : list num) (v : num) : option nat :=
  match scores with
  | [] => None
  | s :: scores' => if s =? v then Some 0 else S <$> py_list_index scores' v
  end.

(** The variables of [run_genetic_algorithm]. *)
Record ga_state := GaState {
  population : list tour;
  best_solution : option tour;
  best_score : num;
  best_scores_per_epoch : list num;
  avg_scores_per_epoch : list num;
  worst_scores_per_epoch : list num
}.

Definition initial_state (population : list tour) : ga_state :=
  GaState population None num_inf [] [] [].

(** The body of [for epoch in range(epochs):]. *)
Definition ga_epoch (mutation_probability : num) (st : ga_state) : M ga_state :=
  population <- create_new_epoch (population st) mutation_probability ;;
  scores <- lift (route_lengths population) ;;
  best_epoch_score <- lift (py_min scores) ;;
  let avg_epoch_score := py_sum scores / num_of_nat (length scores) in
  worst_epoch_score <- lift (py_max scores) ;;
  tracked <-
    (if best_epoch_score <? best_score st then
       match py_list_index scores best_epoch_score with
       | None => raise ValueError
       | Some i =>
           match population !! i with
           | None => raise IndexError
           | Some individual => ret (best_epoch_score, Some individual)
           end
       end
     else ret (best_score st, best_solution st)) ;;
  ret (GaState population tracked.2 tracked.1
         (best_scores_per_epoch st ++ [best_epoch_score])
         (avg_scores_per_epoch st ++ [avg_epoch_score])
         (worst_scores_per_epoch st ++ [worst_epoch_score])).

Fixpoint ga_epochs (mutation_probability : num) (epochs : nat) (st : ga_state)
    : M ga_state :=
  match epochs with
  | 0 => ret st
  | S epochs' =>
      st' <- ga_epochs mutation_probability epochs' st ;;
      ga_epoch mutation_probability st'
  end.

(** The state of [run_genetic_algorithm] once [epochs] passes of its loop
    are done. *)
Definition ga_run (cities : list city) (initial_population_size epochs : nat)
    (mutation_probability : num) : M ga_state :=
  population <- repeatM initial_population_size (random_algorithm cities) ;;
  ga_epochs mutation_probability epochs (initial_state population).

Definition run_genetic_algorithm (cities : list city)
    (initial_population_size epochs : nat) (mutation_probability : num)
    : M (option tour * num * list num * list num * list num) :=
  st <- ga_run cities initial_population_size epochs mutation_probability ;;
  ret (best_solution st, best_score st, best_scores_per_epoch st,
       avg_scores_per_epoch st, worst_scores_per_epoch st).

End Program.

Arguments ga_state {N}.

(** * Properties *)

(** ** The monad *)

Lemma bind_Ok {A B} (m : M A) (k : A → M B) g b g' :
  bind m k g = Ok (b, g') ↔ ∃ a g1, m g = Ok (a, g1) ∧ k a g1 = Ok (b, g').
Proof.
  unfold bind. split.
  - destruct (m g) as [[a g1]|e]; [eauto | discriminate].
  - intros (a & g1 & -> & Hk). exact Hk.
Qed.

Lemma bind_Raise {A B} (m : M A) (k : A → M B) g e :
  bind m k g = Raise e ↔
  m g = Raise e ∨ ∃ a g1, m g = Ok (a, g1) ∧ k a g1 = Raise e.
Proof.
  unfold bind. split.
  - destruct (m g) as [[a g1]|e']; [eauto | intros [= ->]; auto].
  - intros [-> | (a & g1 & -> & Hk)]; [reflexivity | exact Hk].
Qed.

Lemma lift_Ok {A} (r : res A) g a g' : lift r g = Ok (a, g') ↔ r = Ok a ∧ g' = g.
Proof.
  unfold lift. destruct r; split; try discriminate.
  - intros [= -> ->]. auto.
  - intros [[= ->] ->]. reflexivity.
  - intros [[=] _].
Qed.

Lemma ret_Ok {A} (a : A) g b g' : ret a g = Ok (b, g') ↔ b = a ∧ g' = g.
Proof.
  unfold ret. split; [intros [= -> ->]; auto | intros [-> ->]; reflexivity].
Qed.

(** Splits a hypothesis [m g = Ok _] along the binds of [m]. *)
Ltac inv_M :=
  repeat match goal with
    | H : bind _ _ _ = Ok _ |- _ =>
        apply bind_Ok in H; destruct H as (? & ? & ? & H)
    | H : lift _ _ = Ok _ |- _ => apply lift_Ok in H; destruct H as [H ->]
    | H : ret _ _ = Ok _ |- _ => apply ret_Ok in H; destruct H as [-> ->]
    | H : raise _ _ = Ok _ |- _ => discriminate H
    end.

Lemma next_raw_total g : ∃ k g', next_raw g = Ok (k, g').
Proof. destruct g; simpl; eauto. Qed.

Lemma randbelow_Ok n g j g' :
  randbelow n g = Ok (j, g') → 0 < n → j < n.
Proof.
  unfold randbelow. intros H Hn. inv_M. apply Nat.mod_upper_bound. lia.
Qed.

Lemma randbelow_total n g : ∃ j g', randbelow n g = Ok (j, g').
Proof.
  unfold randbelow, bind. destruct (next_raw_total g) as (k & g' & ->).
  unfold ret. eauto.
Qed.

(** ** Swapping two items *)

Section Lists.
Context {A : Type}.
Implicit Types l x : list A.

(** Writing [a] over an item [b] trades a [b] for an [a]. *)
Lemma insert_Permutation l k a b :
  l !! k = Some b → b :: <[k := a]> l ≡ₚ a :: l.
Proof.
  revert k. induction l as [|c l IH]; intros [|k] Hk; simplify_eq/=.
  - apply perm_swap.
  - rewrite (Permutation_swap c b), (Permutation_swap c a).
    f_equiv. by apply IH.
Qed.

Lemma swap_items_Ok x i j x' :
  swap_items x i j = Ok x' ↔
  ∃ xi xj, x !! i = Some xi ∧ x !! j = Some xj ∧ x' = <[j := xi]> (<[i := xj]> x).
Proof.
  unfold swap_items. split.
  - destruct (x !! j) as [xj|] eqn:Hj, (x !! i) as [xi|] eqn:Hi; try discriminate.
    intros [= <-]. eauto.
  - intros (xi & xj & -> & -> & ->). reflexivity.
Qed.

Lemma swap_items_total x i j :
  i < length x → j < length x → ∃ x', swap_items x i j = Ok x'.
Proof.
  intros Hi Hj. unfold swap_items.
  destruct (lookup_lt_is_Some_2 x i Hi) as [xi ->].
  destruct (lookup_lt_is_Some_2 x j Hj) as [xj ->]. eauto.
Qed.

Lemma swap_items_Permutation x i j x' : swap_items x i j = Ok x' → x' ≡ₚ x.
Proof.
  intros (xi & xj & Hi & Hj & ->)%swap_items_Ok.
  apply (Permutation_cons_inv (a := xj)).
  rewrite insert_Permutation.
  - by apply insert_Permutation.
  - rewrite list_lookup_insert by eauto using lookup_lt_Some.
    case_decide; [by subst; simplify_eq | done].
Qed.

Lemma swap_items_length x i j x' : swap_items x i j = Ok x' → length x' = length x.
Proof. intros H. by apply Permutation_length, (swap_items_Permutation _ i j). Qed.

(** What a swap leaves at every position. *)
Lemma swap_items_lookup x i j x' k :
  swap_items x i j = Ok x' →
  x' !! k = if decide (k = j) then x !! i
            else if decide (k = i) then x !! j else x !! k.
Proof.
  intros (xi & xj & Hi & Hj & ->)%swap_items_Ok.
  pose proof (lookup_lt_Some _ _ _ Hi). pose proof (lookup_lt_Some _ _ _ Hj).
  rewrite !list_lookup_insert, length_insert.
  repeat case_decide; destruct_and?; subst; try congruence; exfalso; tauto.
Qed.

(** ** [random.shuffle] *)

Lemma shuffle_loop_spec i x g :
  i < length x ∨ i = 0 →
  ∃ x' g', shuffle_loop i x g = Ok (x', g') ∧ x' ≡ₚ x.
Proof.
  revert x g. induction i as [|i IH]; intros x g Hi.
  - simpl. unfold ret. eauto.
  - destruct Hi as [Hi|]; [|lia]. cbn [shuffle_loop].
    destruct (randbelow_total (S (S i)) g) as (j & g1 & Hj).
    pose proof (randbelow_Ok _ _ _ _ Hj ltac:(lia)) as Hlt.
    destruct (swap_items_total x (S i) j) as [x1 Hx1]; [lia..|].
    destruct (IH x1 g1) as (x' & g' & Hloop & Hperm).
    { left. rewrite (swap_items_length _ _ _ _ Hx1). lia. }
    exists x', g'. split.
    + unfold bind at 1. rewrite Hj. unfold bind at 1, lift. by rewrite Hx1.
    + rewrite Hperm. by eapply swap_items_Permutation.
Qed.

Lemma shuffle_spec x g : ∃ x' g', shuffle x g = Ok (x', g') ∧ x' ≡ₚ x.
Proof. apply shuffle_loop_spec. destruct x; simpl; lia. Qed.

End Lists.

(** ** [random.sample] *)

Section Sample.
Context {A : Type}.
Implicit Types pool result : list A.

(** One pass of the selection loop: the item drawn, then the pool without
    it, is the pool before. *)
Lemma pool_step pool j m x y :
  j ≤ m → pool !! j = Some x → pool !! m = Some y →
  x :: take m (<[j := y]> pool) ≡ₚ take (S m) pool.
Proof.
  intros Hjm Hx Hy. rewrite (take_S_r _ _ _ Hy).
  destruct (decide (j = m)) as [->|Hne].
  - simplify_eq. rewrite take_insert_ge by lia. apply Permutation_cons_append.
  - rewrite take_insert_lt by lia.
    rewrite insert_Permutation by (rewrite lookup_take_lt by lia; done).
    apply Permutation_cons_append.
Qed.

Lemma sample_loop_spec k i n pool result g :
  length pool = n → i + k ≤ n →
  ∃ sel g', sample_loop k i n pool result g = Ok (result ++ sel, g')
            ∧ length sel = k ∧ sel ⊆+ take (n - i) pool.
Proof.
  revert i pool result g. induction k as [|k IH]; intros i pool result g Hlen Hik.
  - exists [], g. simpl. unfold ret. rewrite app_nil_r.
    split_and!; [done..|]. apply submseteq_nil_l.
  - cbn [sample_loop].
    destruct (randbelow_total (n - i) g) as (j & g1 & Hj).
    pose proof (randbelow_Ok _ _ _ _ Hj ltac:(lia)) as Hlt.
    destruct (lookup_lt_is_Some_2 pool j ltac:(lia)) as [x Hx].
    destruct (lookup_lt_is_Some_2 pool (n - i - 1) ltac:(lia)) as [y Hy].
    destruct (IH (S i) (<[j := y]> pool) (result ++ [x]) g1)
      as (sel & g' & Hloop & Hsel & Hsub); [by rewrite length_insert | lia |].
    exists (x :: sel), g'. split_and!.
    + unfold bind. rewrite Hj, Hx, Hy, Hloop. by rewrite <- app_assoc.
    + simpl. by rewrite Hsel.
    + replace (n - i) with (S (n - i - 1)) by lia.
      rewrite <- (pool_step pool j (n - i - 1) x y) by (done || lia).
      apply submseteq_skip. by replace (n - i - 1) with (n - S i) by lia.
Qed.

Lemma sample_loop_fmap {B} (f : A → B) k i n pool result g :
  sample_loop k i n (f <$> pool) (f <$> result) g =
  match sample_loop k i n pool result g with
  | Ok (r, g') => Ok (f <$> r, g')
  | Raise e => Raise e
  end.
Proof.
  revert i pool result g. induction k as [|k IH]; intros i pool result g; [done|].
  cbn [sample_loop]. unfold bind. destruct (randbelow (n - i) g) as [[j g1]|e]; [|done].
  rewrite !list_lookup_fmap.
  destruct (pool !! j) as [x|], (pool !! (n - i - 1)) as [y|]; try done. simpl.
  rewrite <- IH, list_fmap_insert, fmap_app. done.
Qed.

End Sample.

Lemma submseteq_NoDup {A} (l1 l2 : list A) : l1 ⊆+ l2 → NoDup l2 → NoDup l1.
Proof.
  intros [k Hk]%submseteq_Permutation. rewrite Hk, NoDup_app. tauto.
Qed.

(** [random.sample(population, k)] for [k <= len(population)]: [k] items of
    the population, taken from pairwise different positions.  [sel] lists
    the positions with the items. *)
Lemma random_sample_spec {A} (population : list A) k g :
  k ≤ length population →
  ∃ (sel : list (nat * A)) g',
    random_sample population k g = Ok (sel.*2, g')
    ∧ random_sample (seq 0 (length population)) k g = Ok (sel.*1, g')
    ∧ length sel = k
    ∧ NoDup sel.*1
    ∧ ∀ i x, (i, x) ∈ sel → population !! i = Some x.
Proof.
  intros Hk. set (n := length population).
  set (pairs := zip (seq 0 n) population).
  assert (length pairs = n) as Hpairs.
  { unfold pairs. rewrite length_zip_with, length_seq. lia. }
  destruct (sample_loop_spec k 0 n pairs [] g Hpairs ltac:(lia))
    as (sel & g' & Hloop & Hlen & Hsub).
  rewrite Nat.sub_0_r, <- Hpairs, firstn_all in Hsub. simpl in Hloop.
  exists sel, g'. split_and!.
  - unfold random_sample. fold n. rewrite decide_True by done.
    replace population with (pairs.*2) at 1
      by (apply snd_zip; rewrite length_seq; lia).
    change [] with (snd <$> @nil (nat * A)).
    by rewrite sample_loop_fmap, Hloop.
  - unfold random_sample. rewrite length_seq. fold n. rewrite decide_True by done.
    replace (seq 0 n) with (pairs.*1) at 1
      by (apply fst_zip; rewrite length_seq; lia).
    change [] with (fst <$> @nil (nat * A)).
    by rewrite sample_loop_fmap, Hloop.
  - done.
  - apply (submseteq_NoDup (sel.*1) (pairs.*1)).
    + by apply fmap_submseteq.
    + unfold pairs. rewrite fst_zip by (rewrite length_seq; lia). apply NoDup_seq.
  - intros i x Hin. eapply elem_of_submseteq in Hin; [|done].
    apply list_elem_of_lookup in Hin as [p Hp]. unfold pairs in Hp.
    apply lookup_zip_with_Some in Hp as (i' & x' & [= <- <-] & Hi & Hx).
    by apply lookup_seq in Hi as [-> _].
Qed.

Lemma random_sample_Raise {A} (population : list A) k g :
  length population < k → random_sample population k g = Raise ValueError.
Proof. intros Hk. unfold random_sample. by rewrite decide_False by lia. Qed.

Lemma random_sample_Ok {A} (population : list A) k g s g' :
  random_sample population k g = Ok (s, g') →
  length s = k ∧ ∀ x, x ∈ s → x ∈ population.
Proof.
  intros Hs. destruct (decide (k ≤ length population)) as [Hk|Hk].
  - destruct (random_sample_spec population k g Hk)
      as (sel & g1 & Hsel & _ & Hlen & _ & Hin).
    rewrite Hsel in Hs. injection Hs as <- <-. split.
    + by rewrite length_fmap.
    + intros x ([i x'] & -> & Hx)%list_elem_of_fmap.
      eapply list_elem_of_lookup_2, Hin, Hx.
  - rewrite random_sample_Raise in Hs by lia. discriminate.
Qed.

Lemma filter_split {A} (P : A → Prop) `{∀ x, Decision (P x)} (l1 l2 : list A) :
  Forall (λ x, ¬ P x) l1 → Forall P l2 → filter P (l1 ++ l2) = l2.
Proof.
  intros H1 H2. rewrite filter_app.
  replace (filter P l1) with (@nil A).
  - simpl. induction H2 as [|x l Hx _ IH]; [done|].
    by rewrite filter_cons_True, IH.
  - induction H1 as [|x l Hx _ IH]; [done|]. by rewrite filter_cons_False.
Qed.

(** ** Cities and their equality *)

Section Properties.
Context {N : Numeric}.
Local Open Scope num_scope.
Implicit Types (c a b : city) (cities route unvisited : list city).
Implicit Types (t : tour) (pop : list tour).

(** The cities of a list are pairwise distinct, as Python compares them:
    two entries are [==] exactly when they are the same entry. *)
Definition distinct_cities cities : Prop :=
  ∀ i j a b, cities !! i = Some a → cities !! j = Some b →
             (city_eqb a b = true ↔ i = j).

(** The same, as a test that can be run. *)
Definition distinct_citiesb cities : bool :=
  forallb (λ ia, forallb (λ jb,
      Bool.eqb (city_eqb ia.2 jb.2) (ia.1 =? jb.1)%nat) (imap pair cities))
    (imap pair cities).

Lemma distinct_citiesb_true cities :
  distinct_citiesb cities = true → distinct_cities cities.
Proof.
  unfold distinct_citiesb. rewrite forallb_forall. intros H i j a b Hi Hj.
  specialize (H (i, a)). rewrite forallb_forall in H.
  assert (∀ k x, cities !! k = Some x → In (k, x) (imap pair cities)) as Himap.
  { intros k x Hk. apply list_elem_of_In, list_elem_of_lookup. exists k.
    by rewrite list_lookup_imap, Hk. }
  specialize (H (Himap _ _ Hi) (j, b) (Himap _ _ Hj)). simpl in H.
  apply Bool.eqb_prop in H. rewrite H. apply Nat.eqb_eq.
Qed.

Lemma distinct_cities_NoDup cities : distinct_cities cities → NoDup cities.
Proof.
  intros H. apply NoDup_alt. intros i j a Hi Hj.
  apply (H i j a a Hi Hj). by apply (H i i a a).
Qed.

Lemma distinct_cities_eqb cities a b :
  distinct_cities cities → a ∈ cities → b ∈ cities →
  (city_eqb a b = true ↔ a = b).
Proof.
  intros H [i Hi]%list_elem_of_lookup [j Hj]%list_elem_of_lookup.
  rewrite (H i j a b Hi Hj). split; [intros ->; congruence|].
  intros ->. apply (H i j b b Hi Hj). by apply (H i i b b).
Qed.

(** On lists of cities of [cities], [c in l] is membership. *)
Lemma city_in_elem_of cities c l :
  distinct_cities cities → c ∈ cities → (∀ x, x ∈ l → x ∈ cities) →
  (city_in c l = true ↔ c ∈ l).
Proof.
  intros Hd Hc Hl. unfold city_in. rewrite existsb_exists. split.
  - intros (x & Hx%list_elem_of_In & Heq).
    apply (distinct_cities_eqb cities) in Heq; auto. by subst.
  - intros Hin. exists c. split; [by apply list_elem_of_In|].
    by apply (distinct_cities_eqb cities).
Qed.

(** ** Crossover *)

Lemma crossover_Permutation cities parent1 parent2 :
  distinct_cities cities → parent1 ≡ₚ cities → parent2 ≡ₚ cities →
  crossover parent1 parent2 ≡ₚ cities.
Proof.
  intros Hd H1 H2. pose proof (distinct_cities_NoDup _ Hd) as Hnd.
  unfold crossover. set (k := (length parent1 / 2)%nat).
  assert (∀ x, x ∈ take k parent1 → x ∈ cities) as Hpre.
  { intros x Hx. rewrite <- H1. apply elem_of_take in Hx as (i & Hi & _).
    by eapply list_elem_of_lookup_2. }
  assert (∀ c, c ∈ parent2 →
            (city_in c (take k parent1) = false ↔ c ∉ take k parent1)) as Hin.
  { intros c Hc. rewrite <- (city_in_elem_of cities); [|done| |done].
    - by destruct (city_in _ _).
    - by rewrite <- H2. }
  apply NoDup_Permutation; [|done|].
  - apply NoDup_app. split_and!.
    + apply (sublist_NoDup _ parent1); [by rewrite H1 | apply sublist_take].
    + intros x Hx [Hf Hx2]%list_elem_of_filter. by apply Hin in Hf.
    + apply NoDup_filter. by rewrite H2.
  - intros x. rewrite elem_of_app, list_elem_of_filter. split.
    + intros [Hx | [_ Hx]]; [by apply Hpre | by rewrite <- H2].
    + intros Hx. rewrite <- H2 in Hx.
      destruct (city_in x (take k parent1)) eqn:Hc.
      * left. apply (city_in_elem_of cities) in Hc; [done..| |done].
        by rewrite <- H2.
      * by right.
Qed.

(** Crossing a tour of pairwise distinct cities with itself gives it back. *)
Lemma crossover_self t : distinct_cities t → crossover t t = t.
Proof.
  intros Hd. unfold crossover. set (k := (length t / 2)%nat).
  assert (∀ x, x ∈ t → (city_in x (take k t) = false ↔ x ∉ take k t)) as Hin.
  { intros c Hc. rewrite <- (city_in_elem_of t); [|done..|].
    - by destruct (city_in _ _).
    - intros x (i & Hi & _)%elem_of_take. by eapply list_elem_of_lookup_2. }
  pose proof (distinct_cities_NoDup _ Hd) as Hnd.
  rewrite <- (take_drop k t), NoDup_app in Hnd. destruct Hnd as (_ & Hdisj & _).
  pose proof (filter_split (λ c, city_in c (take k t) = false)
                (take k t) (drop k t)) as Hf.
  rewrite take_drop in Hf. rewrite Hf; [apply take_drop | |].
  - apply Forall_forall. intros x Hx Hc. apply Hin in Hc; [done|].
    rewrite <- (take_drop k t). apply elem_of_app. by left.
  - apply Forall_forall. intros x Hx. apply Hin.
    + rewrite <- (take_drop k t). apply elem_of_app. by right.
    + intros Hx'. by apply (Hdisj x).
Qed.

(** ** Scanning for the first minimum

    [greedy_algorithm] and [tournament_selection] both keep the first item
    whose score is strictly below every score seen before it. *)

(** The laws of [<] and [==] that the proofs use.  They hold of the
    IEEE 754 numbers, NaN and the signed zeros included, and of the
    integers (both are proved below): [<] is a strict order; a number that
    is [==] to itself (every number but NaN) is above the smaller or below
    the larger of any two numbers in order; what is below or above a
    number, or [==] to one, is [==] to itself; and of two numbers that
    are [==] neither is below the other. *)
Class NumberOrder : Prop := {
  ltb_irrefl : ∀ a : num, (a <? a) = false;
  ltb_trans : ∀ a b c : num, (a <? b) = true → (b <? c) = true → (a <? c) = true;
  ltb_cotrans : ∀ a b c : num,
    (b =? b) = true → (a <? c) = true → (a <? b) = true ∨ (b <? c) = true;
  ltb_comparable : ∀ a b : num,
    (a <? b) = true → (a =? a) = true ∧ (b =? b) = true;
  eqb_comparable : ∀ a b : num, (a =? b) = true → (a =? a) = true;
  eqb_not_ltb : ∀ a b : num,
    (a =? b) = true → (a <? b) = false ∧ (b <? a) = false
}.

Lemma ltb_asym `{!NumberOrder} (a b : num) : (a <? b) = true → (b <? a) = false.
Proof.
  intros Hab. destruct (b <? a) eqn:Hba; [|done].
  by rewrite <- (ltb_irrefl a), (ltb_trans a b a).
Qed.

Lemma ltb_comparable_l `{!NumberOrder} (a b : num) :
  (a <? b) = true → (a =? a) = true.
Proof. intros Hab. by destruct (ltb_comparable a b Hab). Qed.

Lemma ltb_false_trans `{!NumberOrder} (a b c : num) :
  (b =? b) = true → (a <? b) = false → (b <? c) = false → (a <? c) = false.
Proof.
  intros Hb Hab Hbc. destruct (a <? c) eqn:Hac; [|done].
  destruct (ltb_cotrans a b c Hb Hac); congruence.
Qed.

Section Scan.
Context {A : Type} (f : A → num).

Definition first_min_step (st : option A * num) (a : A) : option A * num :=
  if f a <? st.2 then (Some a, f a) else st.

Definition first_min (l : list A) (st : option A * num) : option A * num :=
  foldl first_min_step st l.

(** [a], at position [i] of [l], is a first minimum of [l]: no item of [l]
    scores below it, and those before it score strictly above it (but for
    an item whose score is NaN, which is above no score). *)
Definition is_first_min (l : list A) (i : nat) (a : A) : Prop :=
  l !! i = Some a
  ∧ (∀ j x, l !! j = Some x → (f x <? f a) = false)
  ∧ (∀ j x, j < i → l !! j = Some x → (f x =? f x) = true →
       (f a <? f x) = true).

Lemma first_min_cons l x st :
  first_min (x :: l) st = first_min l (first_min_step st x).
Proof. done. Qed.

Lemma first_min_spec l o m :
  (first_min l (o, m) = (o, m) ∧ ∀ x, x ∈ l → (f x <? m) = false)
  ∨ ∃ i (a : A), first_min l (o, m) = (Some a, f a)
           ∧ l !! i = Some a
           ∧ (NumberOrder → (f a <? m) = true ∧ is_first_min l i a).
Proof.
  revert o m. induction l as [|x l IH]; intros o m.
  { left. split; [done|]. by intros x ?%elem_of_nil. }
  rewrite first_min_cons. unfold first_min_step. cbn [snd].
  destruct (f x <? m) eqn:Hx.
  - destruct (IH (Some x) (f x)) as [[Heq Hall] | (i & a & Heq & Hi & Hmin)].
    + right. exists 0, x. split_and!; [done..|].
      intros L. unfold is_first_min. split_and!; [done..| |intros; lia].
      intros [|j] y Hy; simplify_eq/=; [apply ltb_irrefl|].
      eapply Hall, list_elem_of_lookup_2, Hy.
    + right. exists (S i), a. split_and!; [done..|].
      intros L. destruct (Hmin L) as (Hax & _ & Hle & Hlt).
      unfold is_first_min. split_and!; [by eapply ltb_trans|done| |].
      * intros [|j] y Hy; simplify_eq/=; [by apply ltb_asym | by eapply Hle].
      * intros [|j] y Hj Hy Hcomp; simplify_eq/=; [done|].
        eapply Hlt; [|done..]. lia.
  - destruct (IH o m) as [[Heq Hall] | (i & a & Heq & Hi & Hmin)].
    + left. split; [done|]. intros y [->|Hy]%elem_of_cons; auto.
    + right. exists (S i), a. split_and!; [done..|].
      intros L. destruct (Hmin L) as (Ham & _ & Hle & Hlt).
      unfold is_first_min. split_and!; [done..| |].
      * intros [|j] y Hy; simplify_eq/=; [|by eapply Hle].
        destruct (f y <? f a) eqn:Hya; [|done].
        by rewrite <- Hx, (ltb_trans _ _ _ Hya Ham).
      * intros [|j] y Hj Hy Hcomp; simplify_eq/=; [|eapply Hlt; [|done..]; lia].
        destruct (ltb_cotrans _ (f y) _ Hcomp Ham); congruence.
Qed.

(** A scan that starts without a candidate ends with one as soon as one
    item scores below the initial bound. *)
Lemma first_min_found l m x :
  x ∈ l → (f x <? m) = true →
  ∃ i (a : A), first_min l (None, m) = (Some a, f a)
         ∧ l !! i = Some a
         ∧ (NumberOrder → (f a <? m) = true ∧ is_first_min l i a).
Proof.
  intros Hx Hlt. destruct (first_min_spec l None m) as [[_ Hall]|H]; [|done].
  rewrite Hall in Hlt by done. discriminate.
Qed.

Lemma first_min_None l m o m' :
  first_min l (None, m) = (o, m') →
  (o = None ∧ ∀ x, x ∈ l → (f x <? m) = false) ∨ ∃ a : A, o = Some a ∧ a ∈ l.
Proof.
  intros Heq. destruct (first_min_spec l None m)
    as [[Heq' Hall]|(i & a & Heq' & Hi & _)]; rewrite Heq' in Heq; simplify_eq.
  - by left.
  - right. exists a. split; [done|]. by eapply list_elem_of_lookup_2.
Qed.

End Scan.

(** ** The nearest-neighbour tour *)

Lemma py_index_Some len i idx : py_index len i = Some idx → idx < len.
Proof.
  unfold py_index. destruct (i <? 0)%Z; case_match; intros [= <-]; lia.
Qed.

Lemma nearest_scan_first_min current unvisited :
  nearest_scan current unvisited
  = first_min (euclidean_distance current) unvisited (None, num_inf).
Proof. reflexivity. Qed.

Lemma list_remove_Some c l l' :
  list_remove c l = Some l' →
  ∃ i x, l !! i = Some x ∧ city_eqb x c = true ∧ l' = delete i l
         ∧ ∀ j y, j < i → l !! j = Some y → city_eqb y c = false.
Proof.
  revert l'. induction l as [|y l IH]; intros l'; [done|]. simpl.
  destruct (city_eqb y c) eqn:Hy.
  - intros [= <-]. exists 0, y. split_and!; [done..|]. intros; lia.
  - destruct (list_remove c l) as [l1|]; [|done]. intros [= <-].
    destruct (IH l1 eq_refl) as (i & x & Hi & Hx & -> & Hfirst).
    exists (S i), x. split_and!; [done..|].
    intros [|j] z Hj Hz; simplify_eq/=; [done|]. eapply Hfirst; [|done]. lia.
Qed.

Lemma list_remove_is_Some c l x :
  x ∈ l → city_eqb x c = true → is_Some (list_remove c l).
Proof.
  intros Hin Hx. induction l as [|y l IH]; [by apply elem_of_nil in Hin|].
  simpl. destruct (city_eqb y c) eqn:Hy; [eauto|].
  apply elem_of_cons in Hin as [->|Hin]; [congruence|].
  destruct (IH Hin) as [l' ->]. simpl. eauto.
Qed.

(** Every distance between two cities of the list is below the sentinel
    [float('inf')]: the coordinates are finite and their differences do
    not overflow. *)
Definition finite_distances cities : Prop :=
  ∀ a b, a ∈ cities → b ∈ cities → (euclidean_distance a b <? num_inf) = true.

Definition finite_distancesb cities : bool :=
  forallb (λ a, forallb (λ b, euclidean_distance a b <? num_inf) cities) cities.

Lemma finite_distancesb_true cities :
  finite_distancesb cities = true → finite_distances cities.
Proof.
  unfold finite_distancesb. rewrite forallb_forall. intros H a b Ha Hb.
  apply list_elem_of_In in Ha, Hb. specialize (H a Ha).
  rewrite forallb_forall in H. by apply H.
Qed.

(** The tour of the specification, in its words: from the current city,
    "repeatedly selects, among remaining cities, the one with minimum
    distance to the current city (first encountered wins ties), appends
    it, and advances". *)
Definition nearest_remaining current (remaining : list city) (i : nat) c : Prop :=
  remaining !! i = Some c
  ∧ (∀ j x, remaining !! j = Some x →
       (euclidean_distance current x <? euclidean_distance current c) = false)
  ∧ (∀ j x, j < i → remaining !! j = Some x →
       (euclidean_distance current c <? euclidean_distance current x) = true).

Inductive nearest_neighbour_tour : city → list city → list city → Prop :=
  | nn_done current : nearest_neighbour_tour current [] []
  | nn_step current remaining i c rest :
      nearest_remaining current remaining i c →
      nearest_neighbour_tour c (delete i remaining) rest →
      nearest_neighbour_tour current remaining (c :: rest).

(** On the cities of the list, [==] is equality. *)
Definition eq_exact cities : Prop :=
  ∀ a b, a ∈ cities → b ∈ cities → (city_eqb a b = true ↔ a = b).

Lemma distinct_cities_eq_exact cities : distinct_cities cities → eq_exact cities.
Proof. intros Hd a b. by apply distinct_cities_eqb. Qed.

Lemma greedy_loop_spec cities fuel current unvisited route :
  eq_exact cities → finite_distances cities →
  current ∈ cities → (∀ x, x ∈ unvisited → x ∈ cities) →
  length unvisited ≤ fuel →
  ∃ rest, greedy_loop fuel current unvisited route = Ok (route ++ rest)
          ∧ rest ≡ₚ unvisited
          ∧ (NumberOrder → nearest_neighbour_tour current unvisited rest).
Proof.
  intros Heq Hfin. revert current unvisited route.
  induction fuel as [|fuel IH]; intros current unvisited route Hcur Hsub Hlen.
  { destruct unvisited; [|simpl in Hlen; lia]. exists []. simpl.
    rewrite app_nil_r. split_and!; [done..|]. intros _. constructor. }
  destruct (decide (unvisited = [])) as [->|Hne].
  { exists []. simpl. rewrite app_nil_r. split_and!; [done..|]. intros _. constructor. }
  assert (∃ x, x ∈ unvisited) as [x Hx].
  { destruct unvisited as [|x ?]; [done|]. exists x. by left. }
  assert (greedy_loop (S fuel) current unvisited route =
          match nearest_scan current unvisited with
          | (None, _) => Raise ValueError
          | (Some nearest_city, _) =>
              match list_remove nearest_city unvisited with
              | None => Raise ValueError
              | Some unvisited' =>
                  greedy_loop fuel nearest_city unvisited' (route ++ [nearest_city])
              end
          end) as -> by (by destruct unvisited).
  rewrite nearest_scan_first_min.
  destruct (first_min_found (euclidean_distance current) unvisited num_inf x)
    as (i & c & -> & Hi & Hmin); [done|by apply Hfin; auto|].
  pose proof (list_elem_of_lookup_2 _ _ _ Hi) as Hc.
  assert (city_eqb c c = true) as Hrefl by (apply Heq; auto).
  destruct (list_remove_is_Some c unvisited c) as [l' Hl']; [done..|].
  rewrite Hl'. apply list_remove_Some in Hl' as (i' & x' & Hi' & Hx' & -> & Hfirst).
  apply Heq in Hx'; [|eapply Hsub, list_elem_of_lookup_2, Hi'|by apply Hsub].
  subst x'.
  destruct (IH c (delete i' unvisited) (route ++ [c])) as (rest & -> & Hperm & Hnn).
  - by apply Hsub.
  - intros y Hy. eapply Hsub, list_elem_of_delete_inv, Hy.
  - rewrite length_delete by eauto. lia.
  - exists (c :: rest). split_and!.
    + by rewrite <- app_assoc.
    + rewrite Hperm. symmetry. by apply delete_Permutation.
    + intros L. destruct (Hmin L) as [_ (_ & Hleast & Hstrict)].
      assert (∀ y, y ∈ unvisited →
                (euclidean_distance current y =? euclidean_distance current y)
                = true) as Hcomp.
      { intros y Hy. eapply ltb_comparable_l. apply Hfin; auto. }
      assert (i' = i) as ->.
      { destruct (Nat.lt_trichotomy i' i) as [Hlt|[->|Hlt]]; [|done|].
        - specialize (Hstrict i' c Hlt Hi' (Hcomp c Hc)).
          by rewrite ltb_irrefl in Hstrict.
        - specialize (Hfirst i c Hlt Hi). congruence. }
      econstructor; [|by apply Hnn].
      split_and!; [done..|]. intros j y Hj Hy.
      eapply Hstrict; [done..|]. eapply Hcomp, list_elem_of_lookup_2, Hy.
Qed.

(** The bound of [greedy_loop] is never reached. *)
Lemma greedy_loop_fuel fuel current unvisited route :
  length unvisited ≤ fuel →
  greedy_loop fuel current unvisited route ≠ Raise FuelExhausted.
Proof.
  revert current unvisited route.
  induction fuel as [|fuel IH]; intros current unvisited route Hlen.
  { by destruct unvisited; [|simpl in Hlen; lia]. }
  destruct unvisited as [|x unvisited']; [done|]. cbn [greedy_loop].
  destruct (nearest_scan current (x :: unvisited')) as [[c|] ?]; [|done].
  destruct (list_remove c (x :: unvisited')) as [l'|] eqn:Hl'; [|done].
  apply IH. apply list_remove_Some in Hl' as (i & y & Hi & _ & -> & _).
  rewrite length_delete by eauto. lia.
Qed.

Lemma greedy_algorithm_fuel cities start :
  greedy_algorithm cities start ≠ Raise FuelExhausted.
Proof.
  unfold greedy_algorithm.
  destruct (py_index _ _) as [i|]; [|by destruct (fits_ssize start)].
  destruct (cities !! i); [|done]. by apply greedy_loop_fuel.
Qed.

Lemma greedy_algorithm_spec cities start idx :
  py_index (length cities) start = Some idx →
  eq_exact cities → finite_distances cities →
  ∃ first rest,
    cities !! idx = Some first
    ∧ greedy_algorithm cities start = Ok (first :: rest)
    ∧ first :: rest ≡ₚ cities
    ∧ (NumberOrder → nearest_neighbour_tour first (delete idx cities) rest).
Proof.
  intros Hidx Heq Hfin. unfold greedy_algorithm. rewrite Hidx.
  destruct (lookup_lt_is_Some_2 cities idx) as [first Hfirst];
    [by eapply py_index_Some|].
  rewrite Hfirst.
  destruct (greedy_loop_spec cities (length (delete idx cities)) first
              (delete idx cities) [first]) as (rest & Hloop & Hperm & Hnn);
    [done..| | | |].
  - by eapply list_elem_of_lookup_2.
  - intros x Hx. by eapply list_elem_of_delete_inv.
  - done.
  - exists first, rest. split_and!; [done..| |done].
    rewrite Hperm. symmetry. by apply delete_Permutation.
Qed.

(** ** The length of a closed tour *)

(** The distances [calculate_route_length] adds up, in the order it adds
    them: the edges between consecutive cities, then the closing edge. *)
Fixpoint path_edges route : list num :=
  match route with
  | a :: (b :: _) as rest => euclidean_distance a b :: path_edges rest
  | _ => []
  end.

Definition closed_edges route : list num :=
  match route, last route with
  | first :: _, Some final => path_edges route ++ [euclidean_distance final first]
  | _, _ => []
  end.

Lemma closed_edges_eq route first final :
  head route = Some first → last route = Some final →
  closed_edges route = path_edges route ++ [euclidean_distance final first].
Proof.
  unfold closed_edges. destruct route; [done|]. by intros [= ->] ->.
Qed.

Lemma add_edges_foldl length route :
  add_edges length route = foldl num_add length (path_edges route).
Proof.
  revert length. induction route as [|a [|b route] IH]; intros length; try done.
  cbn [add_edges path_edges foldl]. apply IH.
Qed.

Lemma calculate_route_length_Ok route :
  route ≠ [] → calculate_route_length route = Ok (py_sum (closed_edges route)).
Proof.
  intros Hne. unfold calculate_route_length, closed_edges, py_sum.
  destruct route as [|first route]; [done|].
  destruct (last (first :: route)) as [final|] eqn:Hlast.
  - by rewrite foldl_snoc, add_edges_foldl.
  - by apply last_None in Hlast.
Qed.

Lemma calculate_route_length_total route :
  route ≠ [] → ∃ s, calculate_route_length route = Ok s.
Proof. intros H. rewrite calculate_route_length_Ok by done. eauto. Qed.

Lemma calculate_route_length_inv route s :
  calculate_route_length route = Ok s → route ≠ [].
Proof. by intros H ->. Qed.

Lemma path_edges_snoc route final c :
  last route = Some final →
  path_edges (route ++ [c]) = path_edges route ++ [euclidean_distance final c].
Proof.
  induction route as [|a [|b route] IH]; intros Hlast; [done|by simplify_eq/=|].
  rewrite last_cons_cons in Hlast. cbn [app path_edges] in *.
  by rewrite IH.
Qed.

(** The laws of exact addition, and of squares of opposite differences. *)
Class ExactSum : Prop := {
  add_comm : ∀ a b : num, a + b = b + a;
  add_assoc : ∀ a b c : num, a + (b + c) = (a + b) + c;
  sqr_sub_swap : ∀ a b : num, num_sqr (a - b) = num_sqr (b - a)
}.

Section ExactSum.
Context `{!ExactSum}.

Lemma euclidean_distance_sym a b : euclidean_distance a b = euclidean_distance b a.
Proof.
  unfold euclidean_distance.
  by rewrite (sqr_sub_swap (city_x b)), (sqr_sub_swap (city_y b)).
Qed.

Lemma foldl_add_Permutation (l l' : list num) z :
  l ≡ₚ l' → foldl num_add z l = foldl num_add z l'.
Proof.
  intros Hperm. revert z.
  induction Hperm as [|x l l' _ IH|x y l|l l' l'' _ IH1 _ IH2]; intros z; simpl.
  - done.
  - apply IH.
  - f_equal. by rewrite <- !add_assoc, (add_comm y x).
  - by rewrite IH1.
Qed.

Lemma closed_edges_rotate1 c route :
  closed_edges (route ++ [c]) ≡ₚ closed_edges (c :: route).
Proof.
  destruct route as [|b route]; [done|].
  destruct (last (b :: route)) as [final|] eqn:Hlast;
    [|by apply last_None in Hlast].
  pose proof (last_snoc c (b :: route)) as Hc.
  pose proof (path_edges_snoc (b :: route) final c Hlast) as Hp.
  unfold closed_edges. rewrite last_cons, Hlast. cbn [app] in *.
  rewrite Hc, Hp. cbn [path_edges]. by rewrite <- Permutation_cons_append.
Qed.

Lemma closed_edges_rotate l1 l2 :
  closed_edges (l1 ++ l2) ≡ₚ closed_edges (l2 ++ l1).
Proof.
  revert l2. induction l1 as [|c l1 IH]; intros l2; [by rewrite app_nil_r|].
  rewrite (cons_middle c l2 l1), app_assoc, <- IH, app_assoc.
  by rewrite closed_edges_rotate1.
Qed.

Lemma path_edges_reverse route :
  path_edges (reverse route) = reverse (path_edges route).
Proof.
  induction route as [|a [|b route] IH]; [done..|].
  rewrite reverse_cons, (path_edges_snoc _ b) by (by rewrite last_reverse).
  cbn [path_edges]. by rewrite IH, reverse_cons, euclidean_distance_sym.
Qed.

Lemma closed_edges_reverse route :
  closed_edges (reverse route) ≡ₚ closed_edges route.
Proof.
  destruct route as [|first route]; [done|].
  destruct (last (first :: route)) as [final|] eqn:Hlast;
    [|by apply last_None in Hlast].
  rewrite (closed_edges_eq (first :: route) first final) by done.
  rewrite (closed_edges_eq (reverse (first :: route)) final first).
  - by rewrite path_edges_reverse, reverse_Permutation, euclidean_distance_sym.
  - by rewrite head_reverse.
  - by rewrite last_reverse.
Qed.

Lemma calculate_route_length_Permutation route route' :
  route ≠ [] → route' ≠ [] → closed_edges route ≡ₚ closed_edges route' →
  calculate_route_length route = calculate_route_length route'.
Proof.
  intros Hne Hne' Hperm. rewrite !calculate_route_length_Ok by done.
  f_equal. by apply foldl_add_Permutation.
Qed.

End ExactSum.

(** ** Tournament selection *)

(** The length of a tour, where it has one. *)
Definition score_of t : num :=
  match calculate_route_length t with Ok s => s | Raise _ => num_zero end.

(** A tour has a length, and it is below the sentinel [float('inf')]. *)
Definition finite_length t : Prop :=
  ∃ s, calculate_route_length t = Ok s ∧ (s <? num_inf) = true.

(** [a] is not longer than [b]; [a] is strictly shorter than [b]. *)
Definition not_longer t1 t2 : Prop :=
  ∃ s1 s2, calculate_route_length t1 = Ok s1 ∧ calculate_route_length t2 = Ok s2
           ∧ (s2 <? s1) = false.

Definition shorter t1 t2 : Prop :=
  ∃ s1 s2, calculate_route_length t1 = Ok s1 ∧ calculate_route_length t2 = Ok s2
           ∧ (s1 <? s2) = true.

Lemma score_of_Ok t s : calculate_route_length t = Ok s → score_of t = s.
Proof. unfold score_of. by intros ->. Qed.

Lemma finite_length_score t : finite_length t → (score_of t <? num_inf) = true.
Proof. intros (s & Hs & Hlt). by rewrite (score_of_Ok _ _ Hs). Qed.

Lemma finite_length_ne t : finite_length t → t ≠ [].
Proof. intros (s & Hs & _). by eapply calculate_route_length_inv. Qed.

Lemma tournament_loop_Ok selected best best_score r :
  tournament_loop selected best best_score = Ok r →
  Forall (λ t, t ≠ []) selected
  ∧ r = (first_min score_of selected (best, best_score)).1.
Proof.
  revert best best_score. induction selected as [|sol selected IH];
    intros best best_score; cbn [tournament_loop]; [by intros [= <-]|].
  rewrite first_min_cons. unfold first_min_step, score_of. cbn [snd].
  destruct (calculate_route_length sol) as [s|e] eqn:Hs; [|done].
  destruct (s <? best_score); intros [Hne ->]%IH; split; try done;
    constructor; eauto using calculate_route_length_inv.
Qed.

Lemma tournament_loop_total selected best best_score :
  Forall (λ t, t ≠ []) selected →
  tournament_loop selected best best_score
  = Ok (first_min score_of selected (best, best_score)).1.
Proof.
  intros Hne. revert best best_score.
  induction Hne as [|sol selected Hsol _ IH]; intros best best_score; [done|].
  cbn [tournament_loop]. rewrite first_min_cons.
  unfold first_min_step, score_of. cbn [snd].
  destruct (calculate_route_length_total sol Hsol) as [s ->].
  destruct (s <? best_score); apply IH.
Qed.

Lemma tournament_selection_Ok pop k g r g' :
  tournament_selection pop k g = Ok (r, g') →
  ∃ selected, random_sample pop k g = Ok (selected, g')
              ∧ tournament_loop selected None num_inf = Ok r.
Proof. unfold tournament_selection. intros H. inv_M. eauto. Qed.

(** What [tournament_selection] returns is a tour of the population. *)
Lemma tournament_selection_elem_of pop k g t g' :
  tournament_selection pop k g = Ok (Some t, g') → t ∈ pop.
Proof.
  intros (selected & Hsel & Hloop)%tournament_selection_Ok.
  apply tournament_loop_Ok in Hloop as [_ Hr].
  destruct (first_min score_of selected (None, num_inf)) as [o m] eqn:Hmin.
  simpl in Hr. subst o.
  apply first_min_None in Hmin as [[? _]|(a & [= <-] & Ha)]; [done|].
  by apply (random_sample_Ok _ _ _ _ _ Hsel).
Qed.

(** A tournament among tours of finite length has a winner: a first
    minimum of the sample. *)
Lemma tournament_selection_winner pop k g :
  1 ≤ k ≤ length pop → Forall finite_length pop →
  ∃ (sel : list (nat * tour)) i best g',
    random_sample pop k g = Ok (sel.*2, g')
    ∧ length sel = k ∧ NoDup sel.*1
    ∧ (∀ j t, (j, t) ∈ sel → pop !! j = Some t)
    ∧ tournament_selection pop k g = Ok (Some best, g')
    ∧ sel.*2 !! i = Some best
    ∧ (NumberOrder → is_first_min score_of sel.*2 i best).
Proof.
  intros [Hk1 Hk] Hfin.
  destruct (random_sample_spec pop k g Hk) as (sel & g' & Hsel & _ & Hlen & Hnd & Hin).
  assert (∀ t, t ∈ sel.*2 → finite_length t) as Hfin'.
  { intros t ([j t'] & -> & Ht)%list_elem_of_fmap.
    eapply (proj1 (Forall_forall _ _) Hfin), list_elem_of_lookup_2, Hin, Ht. }
  destruct sel as [|[j0 t0] sel'] eqn:Hs; [simpl in Hlen; lia|]. rewrite <- Hs in *.
  destruct (first_min_found score_of sel.*2 num_inf t0)
    as (i & best & Hmin & Hi & Hlaws).
  { rewrite Hs. simpl. by left. }
  { apply finite_length_score, Hfin'. rewrite Hs. simpl. by left. }
  exists sel, i, best, g'. split_and!; try done.
  unfold tournament_selection, bind. rewrite Hsel. unfold lift.
  rewrite tournament_loop_total, Hmin; [done|].
  apply Forall_forall. intros t Ht. by apply finite_length_ne, Hfin'.
  intros L. by apply Hlaws.
Qed.

(** ** Mutation *)

Lemma next_raw_eq g : next_raw g = Ok (hd 0 g, tail g).
Proof. by destruct g. Qed.

(** [random.sample(range(n), 2)] *)
Lemma sample_two n g :
  2 ≤ n →
  ∃ i j g', random_sample (seq 0 n) 2 g = Ok ([i; j], g')
            ∧ i ≠ j ∧ i < n ∧ j < n.
Proof.
  intros Hn.
  destruct (random_sample_spec (seq 0 n) 2 g) as (sel & g' & Hsel & _ & Hlen & Hnd & Hin);
    [by rewrite length_seq|].
  destruct sel as [|[i x] [|[j y] [|? ?]]]; simplify_eq/=.
  assert (seq 0 n !! i = Some x) as Hi by (apply Hin; by left).
  assert (seq 0 n !! j = Some y) as Hj by (apply Hin; right; by left).
  apply lookup_seq in Hi as [-> Hi], Hj as [-> Hj]. simpl in *.
  exists i, j, g'. split_and!; [done| |done..].
  apply NoDup_cons in Hnd as [Hnd _]. intros ->. apply Hnd. by left.
Qed.

Lemma swap_mutation_eq route mutation_probability g :
  swap_mutation route mutation_probability g =
  if num_unit (hd 0 g) <? mutation_probability then
    match random_sample (seq 0 (length route)) 2 (tail g) with
    | Ok ([idx1; idx2], g') =>
        match swap_items route idx1 idx2 with
        | Ok r => Ok (r, g')
        | Raise e => Raise e
        end
    | Ok (_, _) => Raise ValueError
    | Raise e => Raise e
    end
  else Ok (route, tail g).
Proof.
  unfold swap_mutation, bind at 1. rewrite next_raw_eq.
  destruct (_ <? _); [|done]. unfold bind.
  destruct (random_sample _ _ _) as [[[|? [|? [|? ?]]] ?]|]; try done.
Qed.

Lemma swap_mutation_Permutation route mutation_probability g r g' :
  swap_mutation route mutation_probability g = Ok (r, g') → r ≡ₚ route.
Proof.
  rewrite swap_mutation_eq. destruct (_ <? _); [|by intros [= <- _]].
  destruct (random_sample _ _ _) as [[[|i [|j [|? ?]]] ?]|]; try done.
  destruct (swap_items route i j) as [r'|] eqn:Hswap; [|done].
  intros [= <- _]. by eapply swap_items_Permutation.
Qed.

Lemma swap_mutation_total route mutation_probability g :
  2 ≤ length route → ∃ r g', swap_mutation route mutation_probability g = Ok (r, g').
Proof.
  intros Hlen. rewrite swap_mutation_eq. destruct (_ <? _); [|eauto].
  destruct (sample_two (length route) (tail g) Hlen) as (i & j & g' & -> & _ & Hi & Hj).
  destruct (swap_items_total route i j Hi Hj) as [r ->]. eauto.
Qed.

(** ** One generation *)

Lemma repeatM_Ok {A} (P : A → Prop) (m : M A) n g l g' :
  (∀ g (x : A) g', m g = Ok (x, g') → P x) →
  repeatM n m g = Ok (l, g') → Forall P l ∧ length l = n.
Proof.
  intros HP. revert g l. induction n as [|n IH]; intros g l Hl; simpl in Hl; inv_M.
  - done.
  - destruct (IH _ _ H0) as [Hall Hlen]. split; [|by simpl; f_equal].
    constructor; eauto.
Qed.

Lemma repeatM_total {A} (P : A → Prop) (m : M A) n g :
  (∀ g, ∃ (x : A) g', m g = Ok (x, g') ∧ P x) →
  ∃ l g', repeatM n m g = Ok (l, g') ∧ Forall P l ∧ length l = n.
Proof.
  intros Hm. revert g. induction n as [|n IH]; intros g; simpl.
  - exists [], g. by unfold ret.
  - destruct (Hm g) as (a & g1 & Ha & HPa). destruct (IH g1) as (l & g' & Hl & Hall & Hlen).
    exists (a :: l), g'. unfold bind, ret. rewrite Ha, Hl.
    split_and!; [done|by constructor|by simpl; f_equal].
Qed.

Lemma make_child_Permutation cities pop mutation_probability g child g' :
  distinct_cities cities → Forall (λ t, t ≡ₚ cities) pop →
  make_child pop mutation_probability g = Ok (child, g') → child ≡ₚ cities.
Proof.
  intros Hd Hpop Hchild. unfold make_child in Hchild. inv_M.
  destruct x as [parent1|]; [|done]. destruct x1 as [parent2|]; [|done].
  apply swap_mutation_Permutation in Hchild. rewrite Hchild.
  rewrite Forall_forall in Hpop.
  apply crossover_Permutation; [done|apply Hpop..];
    by eapply tournament_selection_elem_of.
Qed.

Lemma create_new_epoch_Permutation cities pop mutation_probability g pop' g' :
  distinct_cities cities → Forall (λ t, t ≡ₚ cities) pop →
  create_new_epoch pop mutation_probability g = Ok (pop', g') →
  Forall (λ t, t ≡ₚ cities) pop' ∧ length pop' = length pop.
Proof.
  intros Hd Hpop. apply repeatM_Ok. intros ???. by apply make_child_Permutation.
Qed.

(** ** Scores of a generation *)

Lemma route_lengths_Ok pop scores :
  route_lengths pop = Ok scores →
  scores = score_of <$> pop
  ∧ ∀ t, t ∈ pop → calculate_route_length t = Ok (score_of t).
Proof.
  revert scores. induction pop as [|t pop IH]; intros scores; simpl.
  - intros [= <-]. split; [done|]. by intros t ?%elem_of_nil.
  - destruct (calculate_route_length t) as [s|] eqn:Hs; [|done].
    destruct (route_lengths pop) as [scores'|]; [|done]. intros [= <-].
    destruct (IH _ eq_refl) as [-> Hall]. split.
    + by rewrite (score_of_Ok _ _ Hs).
    + intros t' [->|Ht']%elem_of_cons; [|by apply Hall].
      by rewrite (score_of_Ok _ _ Hs).
Qed.

Lemma route_lengths_total pop :
  Forall (λ t, t ≠ []) pop → route_lengths pop = Ok (score_of <$> pop).
Proof.
  induction 1 as [|t pop Ht _ IH]; [done|]. simpl.
  destruct (calculate_route_length_total t Ht) as [s Hs].
  by rewrite Hs, IH, (score_of_Ok _ _ Hs).
Qed.

Lemma py_min_elem_of (scores : list num) m : py_min scores = Ok m → m ∈ scores.
Proof.
  destruct scores as [|s scores]; [done|]. simpl. intros [= <-].
  revert s. induction scores as [|x scores IH]; intros s; simpl; [by left|].
  destruct (x <? s).
  - right. apply IH.
  - pose proof (IH s) as [Heq|Hin]%elem_of_cons; [rewrite Heq; by left|].
    by do 2 right.
Qed.

(** [min(scores)] is the first score, or below it; no score is below it. *)
Lemma py_min_foldl `{!NumberOrder} (scores : list num) (m r : num) :
  foldl (λ m x, if x <? m then x else m) m scores = r →
  (r = m ∨ (r <? m) = true) ∧ ∀ x, x ∈ scores → (x <? r) = false.
Proof.
  intros <-. revert m. induction scores as [|y scores IH]; intros m; simpl.
  { split; [by left|]. by intros x ?%elem_of_nil. }
  destruct (IH (if y <? m then y else m)) as [Hr Hleast].
  destruct (y <? m) eqn:Hy.
  - split.
    + right. destruct Hr as [->|Hr]; [done|by eapply ltb_trans].
    + intros x [->|Hx]%elem_of_cons; [|by apply Hleast].
      destruct Hr as [->|Hr]; [apply ltb_irrefl | by apply ltb_asym].
  - split; [done|].
    intros x [->|Hx]%elem_of_cons; [|by apply Hleast].
    destruct Hr as [->|Hr]; [done|].
    match goal with |- ?t = false => destruct t eqn:Hxr; [|done] end.
    by rewrite (ltb_trans _ _ _ Hxr Hr) in Hy.
Qed.

Lemma py_min_least `{!NumberOrder} (scores : list num) m x :
  py_min scores = Ok m → x ∈ scores → (x <? m) = false.
Proof.
  destruct scores as [|s scores]; [done|]. simpl. intros [= <-].
  destruct (py_min_foldl scores s _ eq_refl) as [Hr Hleast].
  intros [->|Hx]%elem_of_cons; [|by apply Hleast].
  destruct Hr as [->|Hr]; [apply ltb_irrefl | by apply ltb_asym].
Qed.

Lemma py_max_total (scores : list num) : scores ≠ [] → ∃ w, py_max scores = Ok w.
Proof. destruct scores; [done|]. simpl. eauto. Qed.

Lemma py_min_total (scores : list num) : scores ≠ [] → ∃ m, py_min scores = Ok m.
Proof. destruct scores; [done|]. simpl. eauto. Qed.

Lemma py_list_index_Some (scores : list num) v i :
  py_list_index scores v = Some i →
  ∃ s, scores !! i = Some s ∧ (s =? v) = true.
Proof.
  revert i. induction scores as [|s scores IH]; intros i; [done|]. simpl.
  destruct (s =? v) eqn:Hs.
  - intros [= <-]. eauto.
  - destruct (py_list_index scores v) as [i'|]; [|done]. intros [= <-].
    by apply IH.
Qed.

(** [scores.index(v)] is the first position of an item [==] to [v]. *)
Lemma py_list_index_first (scores : list num) v i j :
  py_list_index scores v = Some i → scores !! j = Some v → (v =? v) = true →
  (∀ k x, k < j → scores !! k = Some x → (x =? v) = false) → i = j.
Proof.
  revert i j. induction scores as [|s scores IH]; intros i j; [done|]. simpl.
  destruct (s =? v) eqn:Hs.
  - intros [= <-] Hj Hv Hbefore. destruct j as [|j]; [done|].
    rewrite (Hbefore 0 s) in Hs; [done|lia|done].
  - destruct (py_list_index scores v) as [i'|] eqn:Hi'; [|done]. intros [= <-].
    destruct j as [|j]; simpl; [intros [= ->]; congruence|].
    intros Hj Hv Hbefore. f_equal. eapply IH; [done..|].
    intros k x Hk Hx. apply (Hbefore (S k) x); [lia|done].
Qed.

(** [min(scores)] is the first score, or it is below the first score and
    no score before the place [min] took it from is [==] to it. *)
Lemma py_min_position `{!NumberOrder} (scores : list num) (m r : num) :
  foldl (λ m x, if x <? m then x else m) m scores = r →
  r = m
  ∨ ((r <? m) = true
     ∧ ∃ j, scores !! j = Some r
            ∧ ∀ k x, k < j → scores !! k = Some x → (x =? r) = false).
Proof.
  intros <-. revert m. induction scores as [|y scores IH]; intros m; simpl;
    [by left|].
  set (r := foldl _ _ scores).
  destruct (IH (if y <? m then y else m)) as [Hr|(Hr & j & Hj & Hbefore)];
    fold r in Hr |- *.
  - destruct (y <? m) eqn:Hy; [|by left]. right. rewrite Hr. split; [done|].
    exists 0. split; [done|]. intros; lia.
  - fold r in Hj, Hbefore. right. split.
    { destruct (y <? m) eqn:Hy; [by eapply ltb_trans|done]. }
    exists (S j). split; [done|].
    intros [|k] x Hk Hx; simplify_eq/=; [|eapply Hbefore; [|done]; lia].
    destruct (x =? r) eqn:Hxr; [|done]. exfalso.
    destruct (eqb_not_ltb _ _ Hxr) as [_ Hrx].
    destruct (x <? m) eqn:Hy; [congruence|].
    destruct (ltb_cotrans r x m (eqb_comparable _ _ Hxr) Hr); congruence.
Qed.

(** Where [min(scores)] is [==] to itself (it is not NaN), the item at
    [scores.index(min(scores))] is [min(scores)] itself. *)
Lemma py_min_index `{!NumberOrder} (scores : list num) m i :
  py_min scores = Ok m → (m =? m) = true →
  py_list_index scores m = Some i → scores !! i = Some m.
Proof.
  destruct scores as [|s scores]; [done|]. simpl. intros [= Hm] Hcomp.
  destruct (py_min_position scores s m Hm) as [->|(Hr & j & Hj & Hbefore)].
  - rewrite Hcomp. by intros [= <-].
  - destruct (s =? m) eqn:Hs.
    { destruct (eqb_not_ltb _ _ Hs) as [_ ?]. congruence. }
    destruct (py_list_index scores m) as [i'|] eqn:Hi'; [|done]. intros [= <-].
    simpl. by rewrite (py_list_index_first scores m i' j Hi' Hj Hcomp Hbefore).
Qed.

Lemma py_list_index_total (scores : list num) v :
  v ∈ scores → (v =? v) = true → ∃ i, py_list_index scores v = Some i.
Proof.
  intros Hv Hrefl. induction scores as [|s scores IH]; [by apply elem_of_nil in Hv|].
  simpl. destruct (s =? v) eqn:Hs; [eauto|].
  apply elem_of_cons in Hv as [->|Hv]; [congruence|].
  destruct (IH Hv) as [i ->]. simpl. eauto.
Qed.

(** ** The evolution loop *)

Lemma ga_epoch_Ok mutation_probability st g st' g' :
  ga_epoch mutation_probability st g = Ok (st', g') →
  ∃ scores best_epoch_score,
    create_new_epoch (population st) mutation_probability g = Ok (population st', g')
    ∧ route_lengths (population st') = Ok scores
    ∧ py_min scores = Ok best_epoch_score
    ∧ best_scores_per_epoch st' = best_scores_per_epoch st ++ [best_epoch_score]
    ∧ (((best_epoch_score <? best_score st) = true
        ∧ best_score st' = best_epoch_score
        ∧ ∃ i t, py_list_index scores best_epoch_score = Some i
                 ∧ population st' !! i = Some t ∧ best_solution st' = Some t)
       ∨ ((best_epoch_score <? best_score st) = false
          ∧ best_score st' = best_score st
          ∧ best_solution st' = best_solution st)).
Proof.
  unfold ga_epoch. intros H. inv_M.
  match goal with
  | Hnew : create_new_epoch _ _ _ = Ok (?pop', ?g1),
    Hsc : route_lengths _ = Ok ?scores,
    Hmin : py_min _ = Ok ?be,
    Htr : _ ?g1 = Ok (_, _) |- _ =>
      exists scores, be; simpl;
      destruct (be <? best_score st) eqn:Hbe;
      [ destruct (py_list_index scores be) as [i|] eqn:Hi; [|done];
        destruct (pop' !! i) as [t|] eqn:Ht; [|done] | ];
      inv_M; simpl; split_and!; try done; [left|right]; eauto 10
  end.
Qed.

Lemma ga_epochs_S mutation_probability epochs st g st' g' :
  ga_epochs mutation_probability (S epochs) st g = Ok (st', g') ↔
  ∃ st1 g1, ga_epochs mutation_probability epochs st g = Ok (st1, g1)
            ∧ ga_epoch mutation_probability st1 g1 = Ok (st', g').
Proof. simpl. apply bind_Ok. Qed.

Lemma ga_run_S cities n epochs mutation_probability g st' g' :
  ga_run cities n (S epochs) mutation_probability g = Ok (st', g') ↔
  ∃ st1 g1, ga_run cities n epochs mutation_probability g = Ok (st1, g1)
            ∧ ga_epoch mutation_probability st1 g1 = Ok (st', g').
Proof.
  unfold ga_run. rewrite bind_Ok. setoid_rewrite ga_epochs_S. split.
  - intros (pop & g0 & Hpop & st1 & g1 & H1 & H2). exists st1, g1.
    split; [|done]. apply bind_Ok. eauto.
  - intros (st1 & g1 & (pop & g0 & Hpop & H1)%bind_Ok & H2). eauto 10.
Qed.

(** Every tour of every generation is a permutation of the cities. *)
Lemma ga_run_Permutation cities n epochs mutation_probability g st g' :
  distinct_cities cities →
  ga_run cities n epochs mutation_probability g = Ok (st, g') →
  Forall (λ t, t ≡ₚ cities) (population st) ∧ length (population st) = n.
Proof.
  intros Hd. revert st g'. induction epochs as [|epochs IH]; intros st g'.
  - unfold ga_run. simpl. intros H. inv_M. simpl.
    eapply repeatM_Ok; [|done]. intros g1 t g2 Ht.
    destruct (shuffle_spec cities g1) as (t' & g3 & Ht' & Hperm).
    unfold random_algorithm in Ht. congruence.
  - intros (st1 & g1 & Hrun & Hepoch)%ga_run_S.
    destruct (IH _ _ Hrun) as [Hall Hlen].
    apply ga_epoch_Ok in Hepoch as (_ & _ & Hnew & _).
    apply (create_new_epoch_Permutation cities) in Hnew as [? ?]; [|done..].
    split; [done|congruence].
Qed.

(** ** A run on a valid instance

    At least two pairwise distinct cities, every tour of which has a finite
    length, and a population of at least seven tours. *)

Section Run.
Context `{!NumberOrder}.
Variables (cities : list city) (n : nat) (mutation_probability : num) (g : rng).
Hypothesis cities_distinct : distinct_cities cities.
Hypothesis cities_two : 2 ≤ length cities.
Hypothesis tours_finite : ∀ t, t ≡ₚ cities → finite_length t.
Hypothesis population_seven : 7 ≤ n.

Definition good_population pop : Prop :=
  length pop = n ∧ Forall (λ t, t ≡ₚ cities) pop.

Lemma good_population_finite pop : good_population pop → Forall finite_length pop.
Proof. intros [_ Hall]. eapply Forall_impl; [done|]. apply tours_finite. Qed.

Lemma make_child_total pop g0 :
  good_population pop →
  ∃ child g', make_child pop mutation_probability g0 = Ok (child, g')
              ∧ child ≡ₚ cities.
Proof.
  intros Hpop. pose proof (good_population_finite _ Hpop) as Hfin.
  destruct Hpop as [Hlen Hall]. unfold make_child.
  destruct (tournament_selection_winner pop 7 g0)
    as (_ & _ & parent1 & g1 & _ & _ & _ & _ & H1 & _); [lia|done|].
  destruct (tournament_selection_winner pop 7 g1)
    as (_ & _ & parent2 & g2 & _ & _ & _ & _ & H2 & _); [lia|done|].
  assert (crossover parent1 parent2 ≡ₚ cities) as Hcross.
  { rewrite Forall_forall in Hall.
    apply crossover_Permutation; [done|apply Hall..];
      by eapply tournament_selection_elem_of. }
  destruct (swap_mutation_total (crossover parent1 parent2) mutation_probability g2)
    as (child & g' & Hchild); [by rewrite Hcross|].
  exists child, g'. split.
  - unfold bind. by rewrite H1, H2.
  - apply swap_mutation_Permutation in Hchild. by rewrite Hchild.
Qed.

Lemma create_new_epoch_total pop g0 :
  good_population pop →
  ∃ pop' g', create_new_epoch pop mutation_probability g0 = Ok (pop', g')
             ∧ good_population pop'.
Proof.
  intros Hpop. unfold create_new_epoch.
  destruct (repeatM_total (λ t, t ≡ₚ cities)
              (make_child pop mutation_probability) (length pop) g0)
    as (pop' & g' & Hrep & Hall & Hlen); [intros; by apply make_child_total|].
  exists pop', g'. split; [done|]. split; [|done]. destruct Hpop. congruence.
Qed.

Lemma ga_epoch_total st g0 :
  good_population (population st) →
  ∃ st' g', ga_epoch mutation_probability st g0 = Ok (st', g')
            ∧ good_population (population st').
Proof.
  intros Hpop.
  destruct (create_new_epoch_total _ g0 Hpop) as (pop' & g' & Hnew & Hpop').
  pose proof (good_population_finite _ Hpop') as Hfin.
  assert (Forall (λ t, t ≠ []) pop') as Hne
    by (eapply Forall_impl; [done | apply finite_length_ne]).
  pose proof (route_lengths_total _ Hne) as Hscores.
  assert (score_of <$> pop' ≠ []) as Hscores_ne.
  { destruct Hpop' as [Hlen _]. intros Hnil%(f_equal length).
    rewrite length_fmap in Hnil. simpl in Hnil. lia. }
  destruct (py_min_total _ Hscores_ne) as [be Hbe].
  destruct (py_max_total _ Hscores_ne) as [w Hw].
  unfold ga_epoch, bind, lift. rewrite Hnew, Hscores, Hbe, Hw.
  destruct (be <? best_score st) eqn:Hlt; [|unfold ret; simpl; eauto].
  destruct (py_list_index_total (score_of <$> pop') be) as [i Hi];
    [by eapply py_min_elem_of | by eapply ltb_comparable_l |].
  rewrite Hi. apply py_list_index_Some in Hi as (s & Hs & _).
  apply lookup_lt_Some in Hs. rewrite length_fmap in Hs.
  destruct (lookup_lt_is_Some_2 pop' i Hs) as [t ->]. unfold ret. simpl. eauto.
Qed.

Lemma ga_run_total epochs :
  ∃ st g', ga_run cities n epochs mutation_probability g = Ok (st, g')
           ∧ good_population (population st).
Proof.
  induction epochs as [|epochs (st & g' & Hrun & Hpop)].
  - destruct (repeatM_total (λ t, t ≡ₚ cities) (random_algorithm cities) n g)
      as (pop & g' & Hrep & Hall & Hlen); [intros; apply shuffle_spec|].
    exists (initial_state pop), g'. split; [|done].
    unfold ga_run, bind. by rewrite Hrep.
  - destruct (ga_epoch_total st g' Hpop) as (st' & g'' & Hepoch & Hpop').
    exists st', g''. split; [|done]. apply ga_run_S. eauto.
Qed.

(** The tracked best score is equal to the one before or strictly below it. *)
Lemma ga_epoch_best_score st g0 st' g' :
  ga_epoch mutation_probability st g0 = Ok (st', g') →
  best_score st' = best_score st ∨ (best_score st' <? best_score st) = true.
Proof.
  intros (scores & be & _ & _ & _ & _ & [(Hlt & -> & _)|(_ & -> & _)])%ga_epoch_Ok;
    auto.
Qed.

(** What the tracked best is, once [epochs] generations are done: no tour
    of a generation so far is shorter, and, from the first generation on,
    it is the length of the tracked solution, a tour of one of them. *)
Definition tracked_best (epochs : nat) (st : ga_state) : Prop :=
  (∀ k st_k g_k t, 1 ≤ k ≤ epochs →
     ga_run cities n k mutation_probability g = Ok (st_k, g_k) →
     t ∈ population st_k → (score_of t <? best_score st) = false)
  ∧ ((epochs = 0 ∧ best_score st = num_inf)
     ∨ ∃ k st_k g_k t, 1 ≤ k ≤ epochs
         ∧ ga_run cities n k mutation_probability g = Ok (st_k, g_k)
         ∧ t ∈ population st_k
         ∧ best_solution st = Some t
         ∧ calculate_route_length t = Ok (best_score st)).

Lemma ga_run_tracked_best epochs st g' :
  ga_run cities n epochs mutation_probability g = Ok (st, g') →
  tracked_best epochs st.
Proof.
  revert st g'. induction epochs as [|epochs IH]; intros st' g' Hrun'.
  { split; [intros; lia|]. left. split; [done|].
    unfold ga_run in Hrun'. simpl in Hrun'. by inv_M. }
  pose proof Hrun' as (st & g1 & Hrun & Hepoch)%ga_run_S.
  destruct (IH _ _ Hrun) as [Hleast Hbest].
  pose proof (ga_run_Permutation _ _ _ _ _ _ _ cities_distinct Hrun') as [Hperm _].
  apply ga_epoch_Ok in Hepoch as (scores & be & _ & Hscores & Hmin & _ & Hcase).
  apply route_lengths_Ok in Hscores as [-> Hlen].
  assert (∀ t, t ∈ population st' → (score_of t <? be) = false) as Hbe.
  { intros t Ht. eapply py_min_least; [done|]. by apply list_elem_of_fmap_2. }
  assert ((be =? be) = true) as Hcomp.
  { pose proof (py_min_elem_of _ _ Hmin) as (t & -> & Ht)%list_elem_of_fmap.
    eapply ltb_comparable_l, finite_length_score, tours_finite.
    by apply (proj1 (Forall_forall _ _) Hperm). }
  split.
  - intros k st_k g_k t Hk Hrun_k Ht.
    destruct (decide (k = S epochs)) as [->|Hne].
    + rewrite Hrun' in Hrun_k. injection Hrun_k as <- <-.
      destruct Hcase as [(_ & -> & _)|(Hge & -> & _)]; [by apply Hbe|].
      eapply ltb_false_trans; [done|by apply Hbe|done].
    + assert ((score_of t <? best_score st) = false) as Hold
        by (eapply (Hleast k); [lia|done..]).
      destruct Hcase as [(Hlt & -> & _)|(_ & -> & _)]; [|done].
      destruct (score_of t <? be) eqn:Htb; [|done].
      by rewrite (ltb_trans _ _ _ Htb Hlt) in Hold.
  - right. destruct Hcase as [(_ & -> & i & t & Hi & Ht & ->)|(Hge & -> & ->)].
    + exists (S epochs), st', g', t. split_and!; [lia..|done| |done|].
      { by eapply list_elem_of_lookup_2. }
      pose proof (py_min_index _ _ _ Hmin Hcomp Hi) as Hs.
      rewrite list_lookup_fmap, Ht in Hs. injection Hs as <-.
      eapply Hlen, list_elem_of_lookup_2, Ht.
    + destruct Hbest as [[-> Hinf]|(k & st_k & g_k & t & Hk & ? & ? & ? & ?)].
      * apply py_min_elem_of in Hmin as (t & -> & Ht)%list_elem_of_fmap.
        rewrite Hinf, finite_length_score in Hge; [done|].
        apply tours_finite. by apply (proj1 (Forall_forall _ _) Hperm).
      * exists k, st_k, g_k, t. split_and!; [lia..|done|done|done|done].
Qed.

End Run.

Lemma py_index_in_range len (i : Z) :
  (- Z.of_nat len ≤ i < Z.of_nat len)%Z → ∃ idx, py_index len i = Some idx.
Proof.
  intros Hi. unfold py_index. destruct (i <? 0)%Z eqn:Hneg.
  - rewrite (proj2 (andb_true_iff _ _)); [eauto|]. split; lia.
  - rewrite (proj2 (andb_true_iff _ _)); [eauto|]. split; lia.
Qed.

(** An epoch that fails from the initial state makes every run of one or
    more epochs fail. *)
Lemma ga_epochs_first_fails mutation_probability st e epochs g :
  (∀ g, ga_epoch mutation_probability st g = Raise e) →
  ga_epochs mutation_probability (S epochs) st g = Raise e.
Proof.
  intros Hfail. induction epochs as [|epochs IH].
  - simpl. unfold bind, ret. apply Hfail.
  - change (ga_epochs mutation_probability (S (S epochs)) st g)
      with (bind (ga_epochs mutation_probability (S epochs) st)
              (ga_epoch mutation_probability) g).
    unfold bind. by rewrite IH.
Qed.

Lemma make_child_small pop mutation_probability g :
  length pop < 7 → make_child pop mutation_probability g = Raise ValueError.
Proof.
  intros Hlen. unfold make_child, bind, tournament_selection, bind.
  by rewrite random_sample_Raise.
Qed.

Lemma create_new_epoch_small pop mutation_probability g :
  1 ≤ length pop < 7 → create_new_epoch pop mutation_probability g = Raise ValueError.
Proof.
  intros Hlen. unfold create_new_epoch.
  destruct (length pop) as [|k] eqn:Hk; [lia|]. simpl. unfold bind.
  rewrite make_child_small; [done|lia].
Qed.

End Properties.

(** ** The reader *)

Lemma split_loop_spaces ws l :
  Forall (λ c, is_space c = true) ws → split_loop [] (ws ++ l) = split_loop [] l.
Proof. induction 1 as [|c ws Hc _ IH]; [done|]. simpl. by rewrite Hc. Qed.

Lemma split_loop_nonspaces w word l :
  Forall (λ c, is_space c = false) w →
  split_loop word (w ++ l) = split_loop (reverse w ++ word) l.
Proof.
  intros Hw. revert word. induction Hw as [|c w Hc _ IH]; intros word; [done|].
  simpl. by rewrite Hc, IH, reverse_cons, <- app_assoc.
Qed.

Lemma split_loop_end_of_word word l :
  word ≠ [] →
  match l with [] => True | c :: _ => is_space c = true end →
  split_loop word l
  = String.string_of_list_ascii (reverse word) :: split_loop [] l.
Proof.
  intros Hword Hl. destruct l as [|c l]; simpl.
  - by destruct word.
  - rewrite Hl. by destruct word.
Qed.

Lemma split_loop_trailing word l ws :
  Forall (λ c, is_space c = true) ws →
  split_loop word (l ++ ws) = split_loop word l.
Proof.
  intros Hws. revert word. induction l as [|c l IH]; intros word.
  - simpl. destruct (decide (word = [])) as [->|Hword].
    + by rewrite <- (app_nil_r ws), split_loop_spaces.
    + rewrite split_loop_end_of_word by (done || by destruct Hws).
      rewrite <- (app_nil_r ws), split_loop_spaces by done. by destruct word.
  - simpl. destruct (is_space c); [destruct word|]; by rewrite ?IH.
Qed.

Lemma lstrip_spec l :
  ∃ ws, Forall (λ c, is_space c = true) ws ∧ l = ws ++ lstrip l.
Proof.
  induction l as [|c l (ws & Hws & Hl)]; [by exists []|]. simpl.
  destruct (is_space c) eqn:Hc; [|by exists []].
  exists (c :: ws). split; [by constructor|]. simpl. by f_equal.
Qed.

(** [line.strip().split()] is [line.split()]. *)
Lemma str_split_strip s : str_split (str_strip s) = str_split s.
Proof.
  unfold str_split, str_strip.
  rewrite String.list_ascii_of_string_of_list_ascii.
  set (l := String.list_ascii_of_string s).
  destruct (lstrip_spec l) as (ws & Hws & Hl).
  destruct (lstrip_spec (reverse (lstrip l))) as (ws' & Hws' & Hl').
  apply (f_equal reverse) in Hl'. rewrite reverse_involutive, reverse_app in Hl'.
  rewrite Hl at 2. rewrite split_loop_spaces by done. rewrite Hl' at 2.
  rewrite split_loop_trailing; [done|]. by apply Forall_reverse.
Qed.

(** A line with one field only, when its stripped form is a marker. *)
Lemma str_strip_marker line marker :
  str_strip line = marker → str_split line = str_split marker.
Proof. intros <-. by rewrite str_split_strip. Qed.

Lemma split_loop_fields fs trail :
  well_formed_fields fs trail →
  split_loop [] (fields_chars fs trail) = field_words fs.
Proof.
  intros [Hsep Hword Hne Hsepne Htrail].
  induction fs as [|[sp w] fs IH]; simpl.
  { by rewrite <- (app_nil_r trail), split_loop_spaces. }
  apply Forall_cons in Hsep as [Hsp Hsep], Hword as [Hw Hword], Hne as [Hwne Hne].
  simpl in *.
  rewrite split_loop_spaces, split_loop_nonspaces, app_nil_r by done.
  rewrite split_loop_end_of_word.
  - rewrite reverse_involutive. f_equal. apply IH; try done.
    destruct fs; [done|]. by apply Forall_cons in Hsepne as [_ ?].
  - intros Hrev%(f_equal reverse). by rewrite reverse_involutive in Hrev.
  - destruct fs as [|[sp' w'] fs]; simpl.
    + by destruct Htrail.
    + apply Forall_cons in Hsepne as [Hsp'ne _], Hsep as [Hsp' _]. simpl in *.
      destruct Hsp'; [done|]. done.
Qed.

Lemma str_split_fields fs trail :
  well_formed_fields fs trail → str_split (fields_line fs trail) = field_words fs.
Proof.
  intros Hwf. unfold str_split, fields_line.
  rewrite String.list_ascii_of_string_of_list_ascii. by apply split_loop_fields.
Qed.

Lemma str_split_header : str_split "NODE_COORD_SECTION" = ["NODE_COORD_SECTION"].
Proof. reflexivity. Qed.

Lemma str_split_empty : str_split "" = [].
Proof. reflexivity. Qed.

Section ReaderLemmas.
Context {N : Numeric}.
Context (py_int : string → option Z) (py_float : string → option num).

(** Before the header, lines other than the two markers are passed over. *)
Lemma read_loop_header header rest cities :
  Forall (λ l, str_strip l ≠ "NODE_COORD_SECTION" ∧ str_strip l ≠ "EOF") header →
  read_loop py_int py_float (header ++ rest) false cities
  = read_loop py_int py_float rest false cities.
Proof.
  induction 1 as [|l header [Hsec Heof] _ IH]; [done|]. simpl.
  by rewrite !decide_False.
Qed.

Lemma read_loop_no_header lines cities :
  Forall (λ l, str_strip l ≠ "NODE_COORD_SECTION") lines →
  read_loop py_int py_float lines false cities = Ok cities.
Proof.
  induction 1 as [|l lines Hsec _ IH]; [done|]. simpl.
  rewrite decide_False by done. by destruct (decide _).
Qed.

Lemma read_loop_EOF pre e post reading cities :
  str_strip e = "EOF" →
  read_loop py_int py_float (pre ++ e :: post) reading cities
  = read_loop py_int py_float pre reading cities.
Proof.
  intros He. revert reading cities.
  induction pre as [|l pre IH]; intros reading cities; simpl.
  - by rewrite He.
  - repeat case_match; auto.
Qed.

Lemma read_loop_line line oc rest cities :
  str_strip line ≠ "EOF" → line_city py_int py_float line = Ok oc →
  read_loop py_int py_float (line :: rest) true cities
  = read_loop py_int py_float rest true (cities ++ option_list oc).
Proof.
  unfold line_city. intros Heof Hoc. simpl.
  destruct (decide (str_strip line = "NODE_COORD_SECTION")) as [Hsec|_].
  { rewrite Hsec, str_split_header in Hoc. injection Hoc as <-.
    by rewrite app_nil_r. }
  rewrite decide_False by done.
  destruct (bool_decide (str_strip line = "")) eqn:Hempty; simpl.
  - apply bool_decide_eq_true in Hempty.
    rewrite Hempty, str_split_empty in Hoc. injection Hoc as <-.
    by rewrite app_nil_r.
  - rewrite Hoc. destruct oc; simpl; by rewrite ?app_nil_r.
Qed.

Lemma read_loop_section body ocs rest cities :
  Forall2 (λ line oc,
    str_strip line ≠ "EOF" ∧ line_city py_int py_float line = Ok oc) body ocs →
  read_loop py_int py_float (body ++ rest) true cities
  = read_loop py_int py_float rest true (cities ++ omap id ocs).
Proof.
  intros Hbody. revert cities.
  induction Hbody as [|line oc body ocs [Heof Hoc] _ IH]; intros cities.
  { by rewrite app_nil_r. }
  cbn [app]. rewrite (read_loop_line _ oc) by done. rewrite IH, <- app_assoc.
  by destruct oc.
Qed.

Lemma read_loop_error lines reading cities e :
  read_loop py_int py_float lines reading cities = Raise e → e = ValueError.
Proof.
  revert reading cities. induction lines as [|l lines IH]; intros reading cities;
    [done|]. simpl. repeat case_match; eauto; try done.
  unfold parse_city in *. repeat case_match; simplify_eq; by intros [= <-].
Qed.

Lemma read_loop_bad_line line rest cities e :
  line_city py_int py_float line = Raise e →
  read_loop py_int py_float (line :: rest) true cities = Raise e.
Proof.
  unfold line_city. intros Hbad. simpl.
  destruct (decide (str_strip line = "NODE_COORD_SECTION")) as [Hsec|_].
  { by rewrite Hsec, str_split_header in Hbad. }
  destruct (decide (str_strip line = "EOF")) as [Heof|_].
  { by rewrite Heof in Hbad. }
  destruct (bool_decide (str_strip line = "")) eqn:Hempty; simpl.
  - apply bool_decide_eq_true in Hempty. by rewrite Hempty in Hbad.
  - by rewrite Hbad.
Qed.

End ReaderLemmas.

(** ** Further lemmas on the program *)

Section More.
Context {N : Numeric}.
Local Open Scope num_scope.




Lemma py_max_foldl `{!NumberOrder} (scores : list num) (m r : num) :
  foldl (λ m x, if m <? x then x else m) m scores = r →
  (r = m ∨ (m <? r) = true) ∧ ∀ x, x ∈ scores → (r <? x) = false.
Proof.
  intros <-. revert m. induction scores as [|y scores IH]; intros m; simpl.
  { split; [by left|]. by intros x ?%elem_of_nil. }
  destruct (IH (if m <? y then y else m)) as [Hr Hgreatest].
  destruct (m <? y) eqn:Hy.
  - split.
    + right. destruct Hr as [->|Hr]; [done|by eapply ltb_trans].
    + intros x [->|Hx]%elem_of_cons; [|by apply Hgreatest].
      destruct Hr as [->|Hr]; [apply ltb_irrefl | by apply ltb_asym].
  - split; [done|].
    intros x [->|Hx]%elem_of_cons; [|by apply Hgreatest].
    destruct Hr as [->|Hr]; [done|].
    match goal with |- ?t = false => destruct t eqn:Hrx; [|done] end.
    by rewrite (ltb_trans _ _ _ Hr Hrx) in Hy.
Qed.

Lemma py_max_greatest `{!NumberOrder} (scores : list num) w x :
  py_max scores = Ok w → x ∈ scores → (w <? x) = false.
Proof.
  destruct scores as [|s scores]; [done|]. simpl. intros [= <-].
  destruct (py_max_foldl scores s _ eq_refl) as [Hr Hgreatest].
  intros [->|Hx]%elem_of_cons; [|by apply Hgreatest].
  destruct Hr as [->|Hr]; [apply ltb_irrefl | by apply ltb_asym].
Qed.

Lemma py_max_elem_of (scores : list num) w : py_max scores = Ok w → w ∈ scores.
Proof.
  destruct scores as [|s scores]; [done|]. simpl. intros [= <-].
  revert s. induction scores as [|x scores IH]; intros s; simpl; [by left|].
  destruct (s <? x).
  - right. apply IH.
  - pose proof (IH s) as [Heq|Hin]%elem_of_cons; [rewrite Heq; by left|].
    by do 2 right.
Qed.

(** What one epoch adds to the three statistics, and how it moves the
    tracked best score. *)
Lemma ga_epoch_stats mutation_probability st g st' g' :
  ga_epoch mutation_probability st g = Ok (st', g') →
  ∃ scores b w,
    route_lengths (population st') = Ok scores
    ∧ py_min scores = Ok b ∧ py_max scores = Ok w
    ∧ length (population st') = length (population st)
    ∧ best_scores_per_epoch st' = best_scores_per_epoch st ++ [b]
    ∧ avg_scores_per_epoch st'
      = avg_scores_per_epoch st ++ [py_sum scores / num_of_nat (length scores)]
    ∧ worst_scores_per_epoch st' = worst_scores_per_epoch st ++ [w]
    ∧ ((best_score st' = b ∧ (b <? best_score st) = true)
       ∨ (best_score st' = best_score st ∧ (b <? best_score st) = false)).
Proof.
  unfold ga_epoch. intros H. inv_M.
  match goal with
  | Hnew : create_new_epoch _ _ _ = Ok (?pop', ?g1),
    Hsc : route_lengths _ = Ok ?scores,
    Hmin : py_min _ = Ok ?be,
    Hmax : py_max _ = Ok ?w,
    Htr : _ ?g1 = Ok (_, _) |- _ =>
      exists scores, be, w;
      apply (repeatM_Ok (λ _, True)) in Hnew as [_ Hlen]; [|done];
      destruct (be <? best_score st) eqn:Hbe;
      [ destruct (py_list_index scores be) as [i|] eqn:Hi; [|done];
        destruct (pop' !! i) as [t|] eqn:Ht; [|done] | ];
      inv_M; simpl; split_and!; try done; [left|right]; done
  end.
Qed.

Lemma ga_run_zero cities n mutation_probability g st g' :
  ga_run cities n 0 mutation_probability g = Ok (st, g') →
  ∃ pop, st = initial_state pop ∧ length pop = n.
Proof.
  unfold ga_run. simpl. intros H. inv_M.
  match goal with
  | Hpop : repeatM _ _ _ = Ok (?pop, _) |- _ =>
      exists pop; split; [done|];
      by apply (repeatM_Ok (λ _, True)) in Hpop as [_ ?]
  end.
Qed.

(** The statistics once [epochs] generations are done. *)
Lemma ga_run_stats cities n epochs mutation_probability g st g' :
  ga_run cities n epochs mutation_probability g = Ok (st, g') →
  length (population st) = n
  ∧ length (best_scores_per_epoch st) = epochs
  ∧ length (avg_scores_per_epoch st) = epochs
  ∧ length (worst_scores_per_epoch st) = epochs
  ∧ (best_score st = num_inf ∨ best_score st ∈ best_scores_per_epoch st)
  ∧ (NumberOrder →
     (∀ b, b ∈ best_scores_per_epoch st → (b <? best_score st) = false)
     ∧ ∀ k b w, best_scores_per_epoch st !! k = Some b →
                worst_scores_per_epoch st !! k = Some w → (w <? b) = false).
Proof.
  revert st g'. induction epochs as [|epochs IH]; intros st' g'.
  { intros (pop & -> & Hlen)%ga_run_zero. simpl. split_and!; auto.
    intros _. split; [by intros b ?%elem_of_nil|]. intros k b w Hk. by destruct k. }
  intros (st & g1 & Hrun & Hepoch)%ga_run_S.
  destruct (IH _ _ Hrun) as (Hpop & Hb & Ha & Hw & Hin & Hlaws).
  apply ga_epoch_stats in Hepoch
    as (scores & b & w & _ & Hmin & Hmax & Hlen & -> & -> & -> & Hcase).
  rewrite !length_app, Hb, Ha, Hw. simpl. split_and!; [congruence|lia..| |].
  - destruct Hcase as [[-> _]|[-> _]].
    + right. apply elem_of_app. right. by left.
    + destruct Hin as [Hinf|Hin]; [by left|]. right. apply elem_of_app. by left.
  - intros L. destruct (Hlaws L) as [Hleast Hworst]. split.
    + intros b' [Hb'|Hb'%list_elem_of_singleton]%elem_of_app; [|subst b'].
      * specialize (Hleast b' Hb').
        destruct Hcase as [[-> Hlt]|[-> _]]; [|done].
        destruct (b' <? b) eqn:Hbb; [|done].
        by rewrite (ltb_trans _ _ _ Hbb Hlt) in Hleast.
      * destruct Hcase as [[-> _]|[-> Hge]]; [apply ltb_irrefl | done].
    + intros k b' w' Hkb Hkw.
      destruct (decide (k < epochs)) as [Hk|Hk].
      * rewrite lookup_app_l in Hkb, Hkw by lia. by eapply Hworst.
      * rewrite lookup_app_r in Hkb, Hkw by lia.
        rewrite Hb in Hkb. rewrite Hw in Hkw.
        destruct (k - epochs)%nat as [|?]; [|done].
        injection Hkb as <-. injection Hkw as <-.
        apply (py_max_greatest scores); [done|]. by apply py_min_elem_of.
Qed.

(** The statistics of epoch [k] are those of the generation that epoch
    made. *)
Lemma ga_run_epoch_stats cities n epochs mutation_probability g st g' k :
  ga_run cities n epochs mutation_probability g = Ok (st, g') → k < epochs →
  ∃ st_k g_k scores b w,
    ga_run cities n (S k) mutation_probability g = Ok (st_k, g_k)
    ∧ route_lengths (population st_k) = Ok scores
    ∧ py_min scores = Ok b ∧ py_max scores = Ok w
    ∧ best_scores_per_epoch st !! k = Some b
    ∧ avg_scores_per_epoch st !! k
      = Some (py_sum scores / num_of_nat (length scores))
    ∧ worst_scores_per_epoch st !! k = Some w.
Proof.
  revert st g'. induction epochs as [|epochs IH]; intros st' g' Hrun' Hk; [lia|].
  pose proof Hrun' as (st & g1 & Hrun & Hepoch)%ga_run_S.
  apply ga_run_stats in Hrun as Hstats.
  destruct Hstats as (_ & Hb & Ha & Hw & _).
  apply ga_epoch_stats in Hepoch
    as (scores & b & w & Hscores & Hmin & Hmax & _ & Hbs & Has & Hws & _).
  rewrite Hbs, Has, Hws.
  destruct (decide (k = epochs)) as [->|Hne].
  - exists st', g', scores, b, w. split_and!; [done..| | |].
    + rewrite lookup_app_r by lia. by rewrite Hb, Nat.sub_diag.
    + rewrite lookup_app_r by lia. by rewrite Ha, Nat.sub_diag.
    + rewrite lookup_app_r by lia. by rewrite Hw, Nat.sub_diag.
  - destruct (IH _ _ Hrun ltac:(lia))
      as (st_k & g_k & scores' & b' & w' & ? & ? & ? & ? & ? & ? & ?).
    exists st_k, g_k, scores', b', w'.
    rewrite !lookup_app_l by lia. done.
Qed.

(** The tracked solution and the tracked score go together. *)
Lemma ga_run_solution `{!NumberOrder} cities n epochs mutation_probability g st g' :
  ga_run cities n epochs mutation_probability g = Ok (st, g') →
  match best_solution st with
  | None => best_score st = num_inf
  | Some t => calculate_route_length t = Ok (best_score st)
              ∧ (best_score st <? num_inf) = true
  end.
Proof.
  revert st g'. induction epochs as [|epochs IH]; intros st' g'.
  { by intros (pop & -> & _)%ga_run_zero. }
  intros (st & g1 & Hrun & Hepoch)%ga_run_S. specialize (IH _ _ Hrun).
  apply ga_epoch_Ok in Hepoch
    as (scores & be & _ & Hscores & Hmin & _
        & [(Hlt & -> & i & t & Hi & Ht & ->)|(_ & -> & ->)]); [|done].
  apply route_lengths_Ok in Hscores as [-> Hlen]. split.
  - pose proof (py_min_index _ _ _ Hmin (ltb_comparable_l _ _ Hlt) Hi) as Hs.
    rewrite list_lookup_fmap, Ht in Hs. injection Hs as <-.
    eapply Hlen, list_elem_of_lookup_2, Ht.
  - destruct (best_solution st) as [t0|].
    + destruct IH as [_ Hfin]. by eapply ltb_trans.
    + by rewrite <- IH.
Qed.

(** With no city, a tournament fails on the first tour it scores. *)
Lemma make_child_empty_tours pop mutation_probability g :
  7 ≤ length pop → Forall (λ t, t = []) pop →
  make_child pop mutation_probability g = Raise IndexError.
Proof.
  intros Hlen Hall. unfold make_child, bind at 1, tournament_selection, bind at 1.
  destruct (random_sample_spec pop 7 g Hlen) as (sel & g1 & Hsel & _ & Hsz & _ & Hin).
  rewrite Hsel. destruct sel as [|[i t] sel]; [done|].
  assert (t = []) as ->.
  { eapply (proj1 (Forall_forall _ _) Hall), list_elem_of_lookup_2, Hin. by left. }
  done.
Qed.

Lemma make_child_elem_of pop mutation_probability g child g' c :
  make_child pop mutation_probability g = Ok (child, g') → c ∈ child →
  ∃ t, t ∈ pop ∧ c ∈ t.
Proof.
  unfold make_child. intros H Hc. inv_M.
  destruct x as [parent1|]; [|done]. destruct x1 as [parent2|]; [|done].
  apply swap_mutation_Permutation in H. rewrite H in Hc.
  unfold crossover in Hc.
  apply elem_of_app in Hc as [Hc%elem_of_take|Hc%list_elem_of_filter].
  - exists parent1. split; [by eapply tournament_selection_elem_of|].
    destruct Hc as (i & Hi & _). by eapply list_elem_of_lookup_2.
  - exists parent2. split; [by eapply tournament_selection_elem_of|].
    by destruct Hc.
Qed.



Lemma tournament_loop_Raise selected best best_score e :
  tournament_loop selected best best_score = Raise e →
  e = IndexError ∧ [] ∈ selected.
Proof.
  revert best best_score. induction selected as [|sol selected IH];
    intros best best_score; [done|].
  cbn [tournament_loop].
  destruct (calculate_route_length sol) as [s|e'] eqn:Hs.
  - destruct (s <? best_score); intros [-> ?]%IH; split; try done; by right.
  - intros [= <-]. destruct sol as [|c sol'].
    + simpl in Hs. injection Hs as <-. split; [done|by left].
    + destruct (calculate_route_length_total (c :: sol')) as [s Hs']; [done|].
      congruence.
Qed.

Lemma tournament_selection_Raise pop k g e :
  tournament_selection pop k g = Raise e →
  (e = ValueError ∧ length pop < k) ∨ (e = IndexError ∧ k ≤ length pop ∧ [] ∈ pop).
Proof.
  intros Hfail. destruct (decide (k ≤ length pop)) as [Hk|Hk].
  - right. destruct (random_sample_spec pop k g Hk) as (sel & g1 & Hsel & _).
    apply random_sample_Ok in Hsel as Hsub. destruct Hsub as [_ Hsub].
    unfold tournament_selection, bind in Hfail. rewrite Hsel in Hfail.
    unfold lift in Hfail.
    destruct (tournament_loop sel.*2 None num_inf) as [r|e'] eqn:Hr; [done|].
    apply tournament_loop_Raise in Hr as [-> Hin]. injection Hfail as <-.
    split_and!; [done..|]. by apply Hsub.
  - left. unfold tournament_selection, bind in Hfail.
    rewrite random_sample_Raise in Hfail by lia.
    injection Hfail as <-. split; [done|lia].
Qed.

Lemma random_population_total cities n g :
  ∃ pop g', repeatM n (random_algorithm cities) g = Ok (pop, g')
            ∧ Forall (λ t, t ≡ₚ cities) pop ∧ length pop = n.
Proof. apply repeatM_total. intros g0. apply shuffle_spec. Qed.

Lemma run_genetic_algorithm_Ok cities n epochs mutation_probability g r g' :
  run_genetic_algorithm cities n epochs mutation_probability g = Ok (r, g') →
  ∃ st, ga_run cities n epochs mutation_probability g = Ok (st, g')
        ∧ r = (best_solution st, best_score st, best_scores_per_epoch st,
               avg_scores_per_epoch st, worst_scores_per_epoch st).
Proof. unfold run_genetic_algorithm. intros H. inv_M. eauto. Qed.

End More.

(** ** The two arithmetics *)

(** The place of an IEEE 754 number in the order of the numbers: nothing
    for NaN; else a triple, compared lexicographically, of the sign class
    (from [-inf] over the negative numbers, the zeros and the positive
    numbers to [inf]), the exponent and the mantissa. *)
Definition sf_key (f : spec_float) : option (Z * Z * Z) :=
  match f with
  | S754_nan => None
  | S754_infinity true => Some (-2, 0, 0)%Z
  | S754_infinity false => Some (2, 0, 0)%Z
  | S754_zero _ => Some (0, 0, 0)%Z
  | S754_finite true m e => Some (-1, - e, - Z.pos m)%Z
  | S754_finite false m e => Some (1, e, Z.pos m)%Z
  end.

Definition key_lt (k1 k2 : Z * Z * Z) : Prop :=
  (k1.1.1 < k2.1.1
   ∨ (k1.1.1 = k2.1.1
      ∧ (k1.1.2 < k2.1.2 ∨ (k1.1.2 = k2.1.2 ∧ k1.2 < k2.2))))%Z.

Definition float_key (x : float) : option (Z * Z * Z) := sf_key (Prim2SF x).

Ltac key_case :=
  eexists; split; [reflexivity|]; unfold key_lt; simpl;
  split; split; intros H; try discriminate H;
  simplify_eq; try reflexivity; try lia.

(** The comparison of IEEE 754 is the comparison of the keys. *)
Lemma SFcompare_key f1 f2 k1 k2 :
  sf_key f1 = Some k1 → sf_key f2 = Some k2 →
  ∃ c, SFcompare f1 f2 = Some c
       ∧ (c = Lt ↔ key_lt k1 k2) ∧ (c = Eq ↔ k1 = k2).
Proof.
  destruct f1 as [s1|s1| |s1 m1 e1], f2 as [s2|s2| |s2 m2 e2];
    try destruct s1; try destruct s2; simpl; try done;
    intros [= <-] [= <-]; try (by key_case).
  - destruct (Z.compare_spec e1 e2) as [->|He|He]; [|by key_case..].
    change (Pos.compare_cont Eq m1 m2) with (Pos.compare m1 m2).
    destruct (Pos.compare_spec m1 m2) as [->|Hm|Hm]; simpl; by key_case.
  - destruct (Z.compare_spec e1 e2) as [->|He|He]; [|by key_case..].
    change (Pos.compare_cont Eq m1 m2) with (Pos.compare m1 m2).
    destruct (Pos.compare_spec m1 m2) as [->|Hm|Hm]; simpl; by key_case.
Qed.

Lemma SFcompare_nan f1 f2 :
  sf_key f1 = None ∨ sf_key f2 = None → SFcompare f1 f2 = None.
Proof.
  destruct f1 as [s1|s1| |s1 m1 e1], f2 as [s2|s2| |s2 m2 e2];
    try destruct s1; try destruct s2; simpl; by intros [?|?].
Qed.

Lemma float_ltb_key x y :
  (x <? y)%float = true
  ↔ ∃ k1 k2, float_key x = Some k1 ∧ float_key y = Some k2 ∧ key_lt k1 k2.
Proof.
  rewrite FloatAxioms.ltb_spec. unfold SFltb, float_key.
  destruct (sf_key (Prim2SF x)) as [k1|] eqn:H1;
    [destruct (sf_key (Prim2SF y)) as [k2|] eqn:H2|].
  - destruct (SFcompare_key _ _ _ _ H1 H2) as (c & -> & Hlt & _).
    split.
    + destruct c; try done. intros _. exists k1, k2. split_and!; [done..|].
      by apply Hlt.
    + intros (? & ? & [= <-] & [= <-] & Hk). by rewrite (proj2 Hlt Hk).
  - rewrite SFcompare_nan by auto. split; [done|]. by intros (? & ? & _ & ? & _).
  - rewrite SFcompare_nan by auto. split; [done|]. by intros (? & ? & ? & _).
Qed.

Lemma float_eqb_key x y :
  (x =? y)%float = true ↔ ∃ k, float_key x = Some k ∧ float_key y = Some k.
Proof.
  rewrite FloatAxioms.eqb_spec. unfold SFeqb, float_key.
  destruct (sf_key (Prim2SF x)) as [k1|] eqn:H1;
    [destruct (sf_key (Prim2SF y)) as [k2|] eqn:H2|].
  - destruct (SFcompare_key _ _ _ _ H1 H2) as (c & -> & _ & Heq).
    split.
    + destruct c; try done. intros _. exists k1. split; [done|].
      f_equal. symmetry. by apply Heq.
    + intros (? & [= <-] & [= <-]). by rewrite (proj2 Heq eq_refl).
  - rewrite SFcompare_nan by auto. split; [done|]. by intros (? & _ & ?).
  - rewrite SFcompare_nan by auto. split; [done|]. by intros (? & ? & _).
Qed.

Lemma float_ltb_false x y k1 k2 :
  float_key x = Some k1 → float_key y = Some k2 → ¬ key_lt k1 k2 →
  (x <? y)%float = false.
Proof.
  intros H1 H2 Hk. destruct (x <? y)%float eqn:Hlt; [|done].
  apply float_ltb_key in Hlt as (? & ? & ? & ? & ?). simplify_eq. done.
Qed.

(** The laws hold of the IEEE 754 numbers, NaN and the zeros included. *)
Lemma binary64_order : @NumberOrder binary64.
Proof.
  split; simpl.
  - intros a. destruct (a <? a)%float eqn:Hlt; [|done].
    apply float_ltb_key in Hlt as (k1 & k2 & H1 & H2 & Hk). simplify_eq.
    unfold key_lt in Hk. lia.
  - intros a b c (k1 & k2 & H1 & H2 & Hk)%float_ltb_key
      (k2' & k3 & H2' & H3 & Hk')%float_ltb_key. simplify_eq.
    apply float_ltb_key. exists k1, k3. split_and!; [done..|].
    unfold key_lt in *. lia.
  - intros a b c (k2 & H2 & _)%float_eqb_key
      (k1 & k3 & H1 & H3 & Hk)%float_ltb_key.
    assert (key_lt k1 k2 ∨ key_lt k2 k3) as [?|?] by (unfold key_lt in *; lia).
    + left. apply float_ltb_key. by exists k1, k2.
    + right. apply float_ltb_key. by exists k2, k3.
  - intros a b (k1 & k2 & H1 & H2 & _)%float_ltb_key.
    split; apply float_eqb_key; eauto.
  - intros a b (k & H1 & _)%float_eqb_key. apply float_eqb_key. eauto.
  - intros a b (k & H1 & H2)%float_eqb_key.
    split; eapply float_ltb_false; try done; unfold key_lt; lia.
Qed.

(** They hold of the integers. *)
Lemma exact_Z_order : @NumberOrder exact_Z.
Proof.
  split; simpl.
  - intros a. apply Z.ltb_irrefl.
  - intros a b c. rewrite !Z.ltb_lt. lia.
  - intros a b c _. rewrite !Z.ltb_lt. lia.
  - intros a b _. by rewrite !Z.eqb_refl.
  - intros a b _. apply Z.eqb_refl.
  - intros a b ->%Z.eqb_eq. by rewrite Z.ltb_irrefl.
Qed.

Lemma exact_Z_sum : @ExactSum exact_Z.
Proof. split; simpl; intros; lia. Qed.

(** ** Concrete cities *)

Definition city64 (i : Z) (x y : float) : @city binary64 := @City binary64 i x y.
Definition cityZ (i x y : Z) : @city exact_Z := @City exact_Z i x y.

(** The corners of the unit square, in the order (0,0), (0,1), (1,1), (1,0). *)
Definition unit_square : list (@city binary64) :=
  [city64 1 0 0; city64 2 0 1; city64 3 1 1; city64 4 1 0].

Definition unit_square_Z : list (@city exact_Z) :=
  [cityZ 1 0 0; cityZ 2 0 1; cityZ 3 1 1; cityZ 4 1 0].

(** Four cities with small integer coordinates. *)
Definition kite : list (@city binary64) :=
  [city64 1 0 0; city64 2 0 2; city64 3 2 0; city64 4 1 1].

Definition two_cities : list (@city exact_Z) := [cityZ 1 0 0; cityZ 2 3 4].

(** Two cities, the second with an infinite coordinate. *)
Definition far_cities : list (@city binary64) :=
  [city64 1 0 0; city64 2 infinity 0].

(** A tour that visits the same city twice. *)
Definition twice : list (@city binary64) := [city64 1 0 0; city64 1 0 0].

(** The corners of the unit square along the two diagonals:
    (0,0), (1,1), (0,1), (1,0). *)
Definition bow_tie : list (@city binary64) :=
  [city64 1 0 0; city64 3 1 1; city64 2 0 1; city64 4 1 0].

(** Three cities on a line, the last with an infinite coordinate. *)
Definition far_three : list (@city binary64) :=
  [city64 1 0 0; city64 2 1 0; city64 3 infinity 0].

(** [finite_length], as a test that can be run. *)
Definition finite_lengthb {N : Numeric} (t : list city) : bool :=
  match calculate_route_length t with
  | Ok s => (s <? num_inf)%num
  | Raise _ => false
  end.

(** A reader of unsigned decimal numbers, to run [read_tsp_file] on
    examples. *)
Definition digit (c : ascii) : option Z :=
  let n := nat_of_ascii c in
  if (48 <=? n) && (n <=? 57) then Some (Z.of_nat (n - 48)) else None.

Fixpoint digits (acc : Z) (l : list ascii) : option Z :=
  match l with
  | [] => Some acc
  | c :: l' =>
      match digit c with
      | Some d => digits (10 * acc + d) l'
      | None => None
      end
  end.

Definition decimal (s : string) : option Z :=
  match String.list_ascii_of_string s with
  | [] => None
  | l => digits 0 l
  end.

(** The lines of an example file: a header, then a coordinate section with
    a blank line and a line of two fields among the cities, then text after
    the end marker. *)
Definition sample_header : list string := ["NAME: sample"; "DIMENSION: 2"].
Definition sample_body : list string := ["1 0 0"; " "; "2 3 4 "; "3 1"].
Definition sample_trailer : list string := ["EOF "; "4 5 6"].

(** Refutes [H : m = Raise e] by running [m]. *)
Ltac returns_Ok H :=
  apply (f_equal (λ r, match r with Ok _ => true | Raise _ => false end)) in H;
  vm_compute in H; discriminate H.

Lemma unit_square_distinct : distinct_cities unit_square.
Proof. by apply distinct_citiesb_true. Qed.

Lemma unit_square_finite : finite_distances unit_square.
Proof. by apply finite_distancesb_true. Qed.

Lemma finite_lengthb_true {N : Numeric} (t : list city) :
  finite_lengthb t = true → finite_length t.
Proof.
  unfold finite_lengthb, finite_length.
  destruct (calculate_route_length t) as [s|]; [eauto|done].
Qed.

(** Each of the 24 tours of the unit square has a finite length. *)
Lemma unit_square_tours_finite t : t ≡ₚ unit_square → finite_length t.
Proof.
  intros Ht. symmetry in Ht. apply permutations_Permutation in Ht.
  apply finite_lengthb_true.
  assert (forallb finite_lengthb (permutations unit_square) = true) as Hall
    by (vm_compute; reflexivity).
  rewrite forallb_forall in Hall. apply Hall. by apply list_elem_of_In.
Qed.

Lemma unit_square_eq_exact : eq_exact unit_square.
Proof. apply distinct_cities_eq_exact, unit_square_distinct. Qed.

(** * The claims *)

(** C1, as stated: on two pairwise distinct cities of which one has an
    infinite coordinate, [greedy_algorithm] returns no permutation: no
    distance is below [float('inf')], no nearest city is found, and
    [unvisited.remove(None)] fails with ValueError. *)
Lemma greedy_algorithm_counterexample :
  distinct_cities far_cities
  ∧ far_cities ≠ []
  ∧ py_index (length far_cities) 0 = Some 0
  ∧ greedy_algorithm far_cities 0 = Raise ValueError.
Proof.
  split_and!; [by apply distinct_citiesb_true | done | done | reflexivity].
Qed.

(** C1, amended.  For a list of pairwise distinct cities:
    [greedy_algorithm], from any start index in range (Python's negative
    indices included) and with all distances between the cities finite,
    returns a permutation of the list; [random_algorithm] returns a
    permutation of the list; and in [run_genetic_algorithm] every tour of
    the population, after any number of generations, is a permutation of
    the list: no city is duplicated and none is dropped. *)
Theorem tours_are_permutations {N : Numeric} (cities : list city) :
  distinct_cities cities →
  (finite_distances cities →
   ∀ start : Z,
     (- Z.of_nat (length cities) ≤ start < Z.of_nat (length cities))%Z →
     ∃ route, greedy_algorithm cities start = Ok route ∧ route ≡ₚ cities)
  ∧ (∀ g, ∃ route g',
       random_algorithm cities g = Ok (route, g') ∧ route ≡ₚ cities)
  ∧ (∀ initial_population_size epochs mutation_probability g st g',
       ga_run cities initial_population_size epochs mutation_probability g
         = Ok (st, g') →
       Forall (λ t, t ≡ₚ cities) (population st)).
Proof.
  intros Hd. split_and!.
  - intros Hfin start [idx Hidx]%py_index_in_range.
    destruct (greedy_algorithm_spec cities start idx Hidx
                (distinct_cities_eq_exact _ Hd) Hfin)
      as (first & rest & _ & Hgreedy & Hperm & _). eauto.
  - intros g. apply shuffle_spec.
  - intros n epochs p g st g' Hrun.
    by destruct (ga_run_Permutation _ _ _ _ _ _ _ Hd Hrun).
Qed.

Lemma tours_are_permutations_witness :
  distinct_cities unit_square
  ∧ finite_distances unit_square
  ∧ (∃ route, greedy_algorithm unit_square (-1) = Ok route ∧ route ≡ₚ unit_square)
  ∧ (∃ route g', random_algorithm unit_square [3; 1; 1] = Ok (route, g')
                 ∧ route ≡ₚ unit_square)
  ∧ (∃ st g', ga_run unit_square 7 2 0x1p-2%float (seq 1 16) = Ok (st, g')
              ∧ Forall (λ t, t ≡ₚ unit_square) (population st)).
Proof.
  pose proof (tours_are_permutations unit_square unit_square_distinct)
    as (Hgreedy & Hrandom & Hga).
  split_and!.
  - exact unit_square_distinct.
  - exact unit_square_finite.
  - apply (Hgreedy unit_square_finite). simpl. lia.
  - apply Hrandom.
  - destruct (ga_run unit_square 7 2 0x1p-2%float (seq 1 16))
      as [[st g']|e] eqn:Hrun; [|by returns_Ok Hrun].
    exists st, g'. split; [done|]. by eapply Hga.
Defined.

(** C6.  For two tours that are permutations of the same list of pairwise
    distinct cities, the child of the crossover step is the first
    [len(parentA) // 2] cities of [parentA], in order, followed by the
    cities of [parentB], in [parentB]'s order, that are not among those
    first cities; and the child is a permutation of the list. *)
Theorem crossover_child {N : Numeric} (cities parentA parentB : list city) :
  distinct_cities cities → parentA ≡ₚ cities → parentB ≡ₚ cities →
  let k := length parentA / 2 in
  let child := crossover parentA parentB in
  take k child = take k parentA
  ∧ drop k child `sublist_of` parentB
  ∧ (∀ c, c ∈ drop k child ↔ c ∈ parentB ∧ c ∉ take k parentA)
  ∧ child ≡ₚ cities.
Proof.
  intros Hd HA HB k child.
  assert (k = length (take k parentA)) as Hk.
  { assert (k ≤ length parentA) by (apply Nat.Div0.div_le_upper_bound; lia).
    rewrite length_take. lia. }
  unfold child, crossover. fold k.
  rewrite (take_app_length' _ _ k Hk), (drop_app_length' _ _ k Hk). split_and!.
  - done.
  - apply sublist_filter.
  - intros c. rewrite list_elem_of_filter. split.
    + intros [Hc Hin]. split; [done|]. intros Hin'.
      apply (city_in_elem_of cities) in Hin'; [congruence|done| |].
      * by rewrite <- HB.
      * intros x (i & Hi & _)%elem_of_take. rewrite <- HA.
        by eapply list_elem_of_lookup_2.
    + intros [Hin Hnot]. split; [|done].
      destruct (city_in c (take k parentA)) eqn:Hc; [|done].
      apply (city_in_elem_of cities) in Hc; [done..| |].
      * by rewrite <- HB.
      * intros x (i & Hi & _)%elem_of_take. rewrite <- HA.
        by eapply list_elem_of_lookup_2.
  - by apply crossover_Permutation.
Qed.

Lemma crossover_child_witness :
  distinct_cities unit_square
  ∧ unit_square ≡ₚ unit_square
  ∧ reverse unit_square ≡ₚ unit_square
  ∧ crossover unit_square (reverse unit_square) ≡ₚ unit_square.
Proof.
  split_and!; [exact unit_square_distinct | done | apply reverse_Permutation |].
  apply (crossover_child unit_square unit_square (reverse unit_square)
           unit_square_distinct); [done | apply reverse_Permutation].
Defined.

(** The number [random.random()] returns when the generator is in state [g]. *)
Definition random_value {N : Numeric} (g : rng) : num := num_unit (hd 0 g).

(** C7.  Let [random.random()] return a number that is not below 0 and is
    below 1.  With mutation probability 0, [swap_mutation] returns the
    route unchanged.  With mutation probability 1 and a route of two or
    more cities it swaps the cities at two different positions and leaves
    every other position as it was.  With mutation probability 1 and a
    route of fewer than two cities it fails with ValueError. *)
Theorem swap_mutation_probability {N : Numeric} (route : list city) (g : rng) :
  (random_value g <? num_zero)%num = false →
  (random_value g <? num_one)%num = true →
  swap_mutation route num_zero g = Ok (route, tail g)
  ∧ (2 ≤ length route →
     ∃ i j r g',
       swap_mutation route num_one g = Ok (r, g')
       ∧ i ≠ j ∧ i < length route ∧ j < length route
       ∧ r !! i = route !! j ∧ r !! j = route !! i
       ∧ ∀ k, k ≠ i → k ≠ j → r !! k = route !! k)
  ∧ (length route < 2 → swap_mutation route num_one g = Raise ValueError).
Proof.
  unfold random_value. intros H0 H1. rewrite !swap_mutation_eq, H0, H1.
  split_and!.
  - done.
  - intros Hlen.
    destruct (sample_two (length route) (tail g) Hlen)
      as (i & j & g' & -> & Hij & Hi & Hj).
    destruct (swap_items_total route i j Hi Hj) as [r Hr]. rewrite Hr.
    exists i, j, r, g'. split_and!; try done.
    + rewrite (swap_items_lookup _ _ _ _ i Hr).
      by rewrite decide_False, decide_True.
    + rewrite (swap_items_lookup _ _ _ _ j Hr). by rewrite decide_True.
    + intros k Hki Hkj. rewrite (swap_items_lookup _ _ _ _ k Hr).
      by rewrite !decide_False.
  - intros Hlen. rewrite random_sample_Raise; [done|]. rewrite length_seq. lia.
Qed.

Lemma swap_mutation_probability_witness :
  (@random_value binary64 [5; 1; 2] <? num_zero)%num = false
  ∧ (@random_value binary64 [5; 1; 2] <? num_one)%num = true
  ∧ swap_mutation unit_square 0%float [5; 1; 2] = Ok (unit_square, [1; 2]).
Proof.
  split_and!; [reflexivity..|].
  by apply (swap_mutation_probability unit_square [5; 1; 2]).
Defined.

(** The laws of zero: its square, its square root and its sum with itself
    are zero. *)
Class ZeroLaws {N : Numeric} : Prop := {
  sqr_zero : num_sqr num_zero = num_zero;
  sqrt_zero : num_sqrt num_zero = num_zero;
  add_zero_zero : (num_zero + num_zero)%num = num_zero
}.

Lemma binary64_zero : @ZeroLaws binary64.
Proof. by split. Qed.

(** A finite number: its difference with itself is zero (for an infinity
    and for NaN it is NaN). *)
Definition finite_number {N : Numeric} (a : num) : Prop := (a - a)%num = num_zero.

(** C9, as stated: on a tour of one city with an infinite coordinate,
    [calculate_route_length] returns NaN, not 0 ([inf - inf] is NaN). *)
Lemma route_length_singleton_counterexample :
  ∃ s, calculate_route_length [city64 2 infinity 0] = Ok s
       ∧ PrimFloat.eqb s 0 = false.
Proof. exists nan. by split. Qed.

(** C9, amended.  [calculate_route_length] fails with IndexError on the
    empty tour; on a tour of one city with finite coordinates it returns
    exactly 0. *)
Theorem route_length_degenerate {N : Numeric} `{!ZeroLaws} :
  calculate_route_length [] = Raise IndexError
  ∧ ∀ c : city,
      finite_number (city_x c) → finite_number (city_y c) →
      calculate_route_length [c] = Ok num_zero.
Proof.
  split; [done|]. intros c Hx Hy.
  unfold calculate_route_length, euclidean_distance. simpl.
  rewrite Hx, Hy, sqr_zero, add_zero_zero, sqrt_zero, add_zero_zero. done.
Qed.

Lemma route_length_degenerate_witness :
  @ZeroLaws binary64
  ∧ @calculate_route_length binary64 [] = Raise IndexError
  ∧ calculate_route_length [city64 7 3.5 (-2)] = Ok 0%float.
Proof.
  split; [exact binary64_zero|].
  destruct (@route_length_degenerate binary64 binary64_zero) as [Hnil Hone].
  split; [exact Hnil|]. by apply Hone.
Defined.

(** C8, as stated: in binary64 the length of a tour changes when the tour
    is rotated by one city, and when it is reversed.  The tour visits
    (0,0), (0,2), (2,0), (1,1); its length is 7.65685424949238, that of
    the rotated and of the reversed tour 7.656854249492381: the same
    distances are added in another order and round differently. *)
Lemma route_length_rotation_counterexample :
  calculate_route_length (rotate 1 kite) ≠ calculate_route_length kite
  ∧ calculate_route_length (reverse kite) ≠ calculate_route_length kite.
Proof.
  pose (same := λ r : res float,
          match r, calculate_route_length kite with
          | Ok x, Ok y => PrimFloat.eqb x y
          | _, _ => false
          end).
  split; intros H; apply (f_equal same) in H; vm_compute in H; discriminate.
Qed.

(** C8, amended.  Where addition is exact (associative and commutative)
    and the squares of opposite differences agree, [calculate_route_length]
    of a non-empty tour is invariant under every rotation of the tour and
    under its reversal. *)
Theorem route_length_rotation_reversal {N : Numeric} `{!ExactSum}
    (route : list city) (k : nat) :
  route ≠ [] →
  calculate_route_length (rotate k route) = calculate_route_length route
  ∧ calculate_route_length (reverse route) = calculate_route_length route.
Proof.
  intros Hne. split.
  - unfold rotate. set (m := k mod length route).
    apply calculate_route_length_Permutation; [|done|].
    + intros Hnil%(f_equal length).
      rewrite length_app, length_drop, length_take in Hnil.
      destruct route; [done|]. simpl in Hnil. lia.
    + rewrite <- (take_drop m route) at 3. apply closed_edges_rotate.
  - apply calculate_route_length_Permutation; [|done|].
    + intros Hnil%(f_equal length). rewrite length_reverse in Hnil.
      by destruct route.
    + apply closed_edges_reverse.
Qed.

Lemma route_length_rotation_reversal_witness :
  @ExactSum exact_Z
  ∧ unit_square_Z ≠ []
  ∧ calculate_route_length (rotate 3 unit_square_Z)
    = calculate_route_length unit_square_Z
  ∧ calculate_route_length (reverse unit_square_Z)
    = calculate_route_length unit_square_Z.
Proof.
  split; [exact exact_Z_sum|]. split; [done|].
  by apply (@route_length_rotation_reversal exact_Z exact_Z_sum).
Defined.

(** C10, as stated: from the in-range start index 0, on three cities of
    which the last has an infinite coordinate, [greedy_algorithm] returns
    no route.  After the nearest city, (1,0), the one remaining city is at
    distance [inf], which is not below [float('inf')]: no city is
    selected, and [unvisited.remove(None)] raises ValueError. *)
Lemma greedy_nearest_neighbour_counterexample :
  py_index (length far_three) 0 = Some 0
  ∧ greedy_algorithm far_three 0 = Raise ValueError.
Proof. split; reflexivity. Qed.

(** C10, amended.  On cities at finite distances from one another, on
    which [==] is equality (as it is on pairwise distinct cities), from an
    in-range start index, [greedy_algorithm] returns a route that starts
    with the city at the start index and goes on, from each city, with the
    remaining city at minimum distance, the first encountered among those
    that tie; this holds for every arithmetic with the laws of
    [NumberOrder], which IEEE 754 has.  In binary64, on the corners (0,0),
    (0,1), (1,1), (1,0) of the unit square from index 0, the route is the
    perimeter in this order, which is such a nearest-neighbour tour, and
    the length of the closed tour is exactly 4.0; from index -3, the route
    is (0,1), (0,0), (1,0), (1,1). *)
Theorem greedy_nearest_neighbour :
  (∀ (N : Numeric) (cities : list city) (start : Z) (idx : nat),
     NumberOrder → eq_exact cities → finite_distances cities →
     py_index (length cities) start = Some idx →
     ∃ first rest,
       cities !! idx = Some first
       ∧ greedy_algorithm cities start = Ok (first :: rest)
       ∧ nearest_neighbour_tour first (delete idx cities) rest)
  ∧ greedy_algorithm unit_square 0 = Ok unit_square
  ∧ nearest_neighbour_tour (city64 1 0 0) (tail unit_square) (tail unit_square)
  ∧ calculate_route_length unit_square = Ok 4%float
  ∧ greedy_algorithm unit_square (-3)
    = Ok [city64 2 0 1; city64 1 0 0; city64 4 1 0; city64 3 1 1].
Proof.
  split_and!; [|done| |done|done].
  - intros N cities start idx L Heq Hfin Hidx.
    destruct (greedy_algorithm_spec cities start idx Hidx Heq Hfin)
      as (first & rest & Hfirst & Hgreedy & _ & Hnn).
    exists first, rest. split_and!; [done..|]. by apply Hnn.
  - repeat (apply (nn_step _ _ 0);
      [split_and!;
         [done
         |by intros [|[|[|j]]] x [= <-]
         |intros; lia]
      |cbn [delete list_delete]]).
    constructor.
Qed.

Lemma greedy_nearest_neighbour_witness :
  @NumberOrder binary64
  ∧ eq_exact unit_square
  ∧ finite_distances unit_square
  ∧ py_index (length unit_square) (-3) = Some 1
  ∧ ∃ first rest,
      unit_square !! 1 = Some first
      ∧ greedy_algorithm unit_square (-3) = Ok (first :: rest)
      ∧ nearest_neighbour_tour first (delete 1 unit_square) rest.
Proof.
  split_and!; [exact binary64_order | exact unit_square_eq_exact
              | exact unit_square_finite | reflexivity |].
  apply (proj1 greedy_nearest_neighbour binary64 unit_square (-3)%Z 1
           binary64_order unit_square_eq_exact unit_square_finite eq_refl).
Defined.

(** C5, as stated: a tournament of size 0 does not exceed the population
    size, and [tournament_selection] then returns [None], no member of
    the sample; so does a tournament of size 1 on a tour of infinite
    length, which is not below the initial best score [float('inf')]. *)
Lemma tournament_selection_counterexample :
  Forall (λ t, t ≠ []) [unit_square]
  ∧ 0 ≤ length [unit_square]
  ∧ tournament_selection [unit_square] 0 [] = Ok (None, [])
  ∧ Forall (λ t, t ≠ []) [far_cities]
  ∧ 1 ≤ length [far_cities]
  ∧ tournament_selection [far_cities] 1 [] = Ok (None, []).
Proof.
  split_and!;
    [by repeat constructor | simpl; lia | reflexivity
    | by repeat constructor | simpl; lia | reflexivity].
Qed.

(** C5, amended.  For a population of non-empty tours of finite length and
    a tournament size between 1 and the population size,
    [tournament_selection] draws that many tours from pairwise different
    positions of the population and returns one of the sample that no tour
    of the sample is shorter than, the first such tour in the order of the
    sample: every tour before it is strictly longer.  With a tournament
    size above the population size it fails with ValueError.  This holds
    for every arithmetic with the laws of [NumberOrder], which IEEE 754
    has. *)
Theorem tournament_selection_first_minimum {N : Numeric} `{!NumberOrder}
    (pop : list tour) (k : nat) (g : rng) :
  Forall finite_length pop →
  (1 ≤ k ≤ length pop →
   ∃ (sel : list (nat * tour)) i best g',
     random_sample pop k g = Ok (sel.*2, g')
     ∧ length sel = k ∧ NoDup sel.*1
     ∧ (∀ j t, (j, t) ∈ sel → pop !! j = Some t)
     ∧ tournament_selection pop k g = Ok (Some best, g')
     ∧ sel.*2 !! i = Some best
     ∧ (∀ j t, sel.*2 !! j = Some t → not_longer best t)
     ∧ (∀ j t, j < i → sel.*2 !! j = Some t → shorter best t))
  ∧ (length pop < k → tournament_selection pop k g = Raise ValueError).
Proof.
  intros Hfin. split.
  - intros Hk.
    destruct (tournament_selection_winner pop k g Hk Hfin)
      as (sel & i & best & g' & Hsel & Hlen & Hnd & Hin & Hts & Hi & Hmin).
    destruct (Hmin _) as (_ & Hle & Hlt).
    assert (∀ t, t ∈ sel.*2 → calculate_route_length t = Ok (score_of t)) as Hsc.
    { intros t ([j t'] & -> & Ht)%list_elem_of_fmap.
      destruct (proj1 (Forall_forall _ _) Hfin t') as (s & Hs & _).
      - eapply list_elem_of_lookup_2, Hin, Ht.
      - simpl. by rewrite (score_of_Ok _ _ Hs). }
    pose proof (Hsc best (list_elem_of_lookup_2 _ _ _ Hi)) as Hbest.
    exists sel, i, best, g'. split_and!; try done.
    + intros j t Ht. exists (score_of best), (score_of t).
      split_and!; [done| |by eapply Hle]. eapply Hsc, list_elem_of_lookup_2, Ht.
    + intros j t Hj Ht. exists (score_of best), (score_of t).
      split_and!; [done|by eapply Hsc, list_elem_of_lookup_2, Ht|].
      eapply Hlt; [done..|]. eapply ltb_comparable_l, finite_length_score.
      pose proof (list_elem_of_lookup_2 _ _ _ Ht)
        as ([j' t'] & -> & Hin')%list_elem_of_fmap.
      eapply (proj1 (Forall_forall _ _) Hfin), list_elem_of_lookup_2, Hin, Hin'.
  - intros Hk. unfold tournament_selection, bind. by rewrite random_sample_Raise.
Qed.

Lemma tournament_selection_first_minimum_witness :
  @NumberOrder binary64
  ∧ Forall finite_length [bow_tie; unit_square]
  ∧ (∃ (sel : list (nat * tour)) i best g',
       random_sample [bow_tie; unit_square] 2 [1; 0] = Ok (sel.*2, g')
       ∧ tournament_selection [bow_tie; unit_square] 2 [1; 0]
         = Ok (Some best, g')
       ∧ sel.*2 !! i = Some best
       ∧ (∀ j t, sel.*2 !! j = Some t → not_longer best t)
       ∧ (∀ j t, j < i → sel.*2 !! j = Some t → shorter best t))
  ∧ tournament_selection [bow_tie; unit_square] 3 [1; 0] = Raise ValueError.
Proof.
  assert (Forall finite_length [bow_tie; unit_square]) as Hfin.
  { repeat constructor; by apply finite_lengthb_true. }
  destruct (@tournament_selection_first_minimum binary64 binary64_order
              [bow_tie; unit_square] 2 [1; 0] Hfin) as [Hwin _].
  destruct (@tournament_selection_first_minimum binary64 binary64_order
              [bow_tie; unit_square] 3 [1; 0] Hfin) as [_ Hfail].
  split_and!; [exact binary64_order | exact Hfin | | apply Hfail; simpl; lia].
  destruct Hwin as (sel & i & best & g' & Hsel & _ & _ & _ & Hts & Hi & Hle & Hlt);
    [simpl; lia|].
  exists sel, i, best, g'. done.
Defined.

(** C3, as stated: one generation on a population of one tour fails.
    (And where the tour has an infinite length a tournament of size 1
    returns [None]; where it visits a city twice its crossover with itself
    is another tour.) *)
Lemma single_tour_generation_counterexample :
  create_new_epoch [unit_square] 0x1p-2%float [] = Raise ValueError
  ∧ tournament_selection [far_cities] 1 [] = Ok (None, [])
  ∧ crossover twice twice ≠ twice.
Proof. split_and!; [reflexivity | reflexivity | discriminate]. Qed.

(** C3, amended.  On a population of one tour, of finite length and of
    pairwise distinct cities, one generation fails with ValueError:
    [create_new_epoch] runs tournaments of size 7, and a tournament of any
    size above 1 fails.  A tournament of size 1 returns the tour; the
    crossover of the tour with itself is the tour, so its length is that
    of the tour. *)
Theorem single_tour_population {N : Numeric}
    (t : list city) (mutation_probability : num) (g : rng) :
  finite_length t → distinct_cities t →
  create_new_epoch [t] mutation_probability g = Raise ValueError
  ∧ (∀ k, 1 < k → tournament_selection [t] k g = Raise ValueError)
  ∧ (∃ g', tournament_selection [t] 1 g = Ok (Some t, g'))
  ∧ crossover t t = t
  ∧ calculate_route_length (crossover t t) = calculate_route_length t.
Proof.
  intros Hfin Hd. split_and!.
  - apply create_new_epoch_small. simpl. lia.
  - intros k Hk. unfold tournament_selection, bind.
    by rewrite random_sample_Raise by (simpl; lia).
  - destruct (tournament_selection_winner [t] 1 g)
      as (_ & _ & best & g' & _ & _ & _ & _ & Hts & _);
      [simpl; lia | by repeat constructor |].
    pose proof (tournament_selection_elem_of _ _ _ _ _ Hts)
      as ->%list_elem_of_singleton. eauto.
  - by apply crossover_self.
  - by rewrite crossover_self.
Qed.

Lemma single_tour_population_witness :
  finite_length unit_square
  ∧ distinct_cities unit_square
  ∧ create_new_epoch [unit_square] 0x1p-2%float [3; 4] = Raise ValueError
  ∧ crossover unit_square unit_square = unit_square.
Proof.
  assert (finite_length unit_square) as Hfin by (by exists 4%float).
  destruct (single_tour_population unit_square 0x1p-2%float [3; 4]
              Hfin unit_square_distinct) as (Hfail & _ & _ & Hself & _).
  split_and!; [exact Hfin | exact unit_square_distinct | exact Hfail | exact Hself].
Defined.

(** C4, as stated: on the empty population, which is smaller than 7,
    [create_new_epoch] does not fail; it returns the empty population. *)
Lemma create_new_epoch_empty_counterexample :
  @create_new_epoch binary64 [] 0x1p-2%float [] = Ok ([], []).
Proof. reflexivity. Qed.

(** C4, amended.  [create_new_epoch] runs its tournaments with size 7: on
    every population of 1 to 6 tours it fails with ValueError, and on the
    empty population it returns the empty population;
    [run_genetic_algorithm] with one epoch or more fails with ValueError
    for every initial population size below 7; drawing the sample of a
    tournament succeeds on every population of 7 tours or more; and on
    every population of 7 or more tours of two or more pairwise distinct
    cities, all tours of which have a finite length, [create_new_epoch]
    returns a population of the same size. *)
Theorem tournament_size_seven {N : Numeric} :
  (∀ pop mutation_probability g,
     1 ≤ length pop < 7 →
     create_new_epoch pop mutation_probability g = Raise ValueError)
  ∧ (∀ mutation_probability g,
       create_new_epoch [] mutation_probability g = Ok ([], g))
  ∧ (∀ cities initial_population_size epochs mutation_probability g,
       initial_population_size < 7 → 1 ≤ epochs →
       run_genetic_algorithm cities initial_population_size epochs
         mutation_probability g = Raise ValueError)
  ∧ (∀ (pop : list tour) g,
       7 ≤ length pop →
       ∃ selected g', random_sample pop 7 g = Ok (selected, g')
                      ∧ length selected = 7)
  ∧ (∀ cities (pop : list tour) mutation_probability g,
       distinct_cities cities → 2 ≤ length cities →
       (∀ t, t ≡ₚ cities → finite_length t) →
       Forall (λ t, t ≡ₚ cities) pop → 7 ≤ length pop →
       ∃ new_population g',
         create_new_epoch pop mutation_probability g = Ok (new_population, g')
         ∧ length new_population = length pop).
Proof.
  split_and!.
  - intros. by apply create_new_epoch_small.
  - done.
  - intros cities n epochs p g Hn He.
    destruct (repeatM_total (λ t, t ≡ₚ cities) (random_algorithm cities) n g)
      as (pop & g1 & Hpop & _ & Hlen); [intros; apply shuffle_spec|].
    unfold run_genetic_algorithm, ga_run, bind. rewrite Hpop.
    destruct epochs as [|epochs]; [lia|].
    rewrite ga_epochs_first_fails with (e := ValueError); [done|].
    intros g0. unfold ga_epoch, bind. cbn [population initial_state].
    destruct (decide (n = 0)) as [->|Hne].
    + by destruct pop.
    + by rewrite create_new_epoch_small by lia.
  - intros pop g Hlen.
    destruct (random_sample_spec pop 7 g Hlen) as (sel & g' & Hsel & _ & Hl & _).
    exists sel.*2, g'. by rewrite length_fmap.
  - intros cities pop p g Hd Htwo Hfin Hpop Hlen.
    destruct (create_new_epoch_total cities (length pop) p Hd Htwo Hfin Hlen
                pop g) as (pop' & g' & Hnew & Hlen' & _); [done|].
    by exists pop', g'.
Qed.

Lemma tournament_size_seven_witness :
  @create_new_epoch binary64 (replicate 6 unit_square) 0x1p-2%float []
    = Raise ValueError
  ∧ run_genetic_algorithm unit_square 0 3 0x1p-2%float [] = Raise ValueError
  ∧ run_genetic_algorithm unit_square 6 3 0x1p-2%float [] = Raise ValueError
  ∧ (∃ selected g', random_sample (replicate 7 unit_square) 7 [] = Ok (selected, g')
                    ∧ length selected = 7)
  ∧ ∃ new_population g',
      create_new_epoch (replicate 7 unit_square) 0x1p-2%float [2; 7; 1; 8]
      = Ok (new_population, g')
      ∧ length new_population = 7.
Proof.
  destruct (@tournament_size_seven binary64)
    as (Hsmall & _ & Hrun & Hsample & Hseven).
  split_and!.
  - apply Hsmall. simpl. lia.
  - apply Hrun; lia.
  - apply Hrun; lia.
  - apply Hsample. simpl. lia.
  - apply (Hseven unit_square);
      [exact unit_square_distinct | simpl; lia | exact unit_square_tours_finite
      | by repeat constructor | simpl; lia].
Defined.

(** C2.  On two or more pairwise distinct cities whose tours all have a
    finite length, with an initial population of 7 or more and one epoch
    or more, [run_genetic_algorithm] returns a solution and its score.
    From one epoch to the next the tracked best score stays as it is or is
    replaced by a strictly smaller one; no tour of any generation is
    shorter than the returned score; and the returned solution is a tour
    of one of the generations whose length is exactly the returned
    score.  This holds for every arithmetic with the laws of
    [NumberOrder], which IEEE 754 has. *)
Theorem best_score_is_minimum {N : Numeric} `{!NumberOrder}
    (cities : list city) (initial_population_size epochs : nat)
    (mutation_probability : num) (g : rng) :
  distinct_cities cities → 2 ≤ length cities →
  (∀ t, t ≡ₚ cities → finite_length t) →
  7 ≤ initial_population_size → 1 ≤ epochs →
  let state_after k st :=
    ∃ g_k, ga_run cities initial_population_size k mutation_probability g
           = Ok (st, g_k) in
  ∃ solution score bests avgs worsts g',
    run_genetic_algorithm cities initial_population_size epochs
      mutation_probability g
    = Ok ((Some solution, score, bests, avgs, worsts), g')
    ∧ (∀ k, ∃ st, state_after k st)
    ∧ (∀ k st st', state_after k st → state_after (S k) st' →
         best_score st' = best_score st
         ∨ (best_score st' <? best_score st)%num = true)
    ∧ (∀ k st t, 1 ≤ k ≤ epochs → state_after k st → t ∈ population st →
         ∃ s, calculate_route_length t = Ok s ∧ (s <? score)%num = false)
    ∧ (∃ k st, 1 ≤ k ≤ epochs ∧ state_after k st
               ∧ solution ∈ population st
               ∧ calculate_route_length solution = Ok score).
Proof.
  intros Hd Htwo Hfin Hn He state_after.
  destruct (ga_run_total cities initial_population_size mutation_probability g
              Hd Htwo Hfin Hn epochs) as (st & g' & Hrun & _).
  destruct (ga_run_tracked_best cities initial_population_size
              mutation_probability g Hd Htwo Hfin Hn epochs st g' Hrun)
    as [Hleast [[-> _]|(k & st_k & g_k & t & Hk & Hrun_k & Ht & Hsol & Hlen)]];
    [lia|].
  exists t, (best_score st), (best_scores_per_epoch st),
    (avg_scores_per_epoch st), (worst_scores_per_epoch st), g'.
  split_and!.
  - unfold run_genetic_algorithm, bind, ret. by rewrite Hrun, Hsol.
  - intros j.
    destruct (ga_run_total cities initial_population_size mutation_probability g
                Hd Htwo Hfin Hn j) as (st_j & g_j & Hrun_j & _).
    exists st_j, g_j. done.
  - intros j st1 st2 [g1 H1] [g2 (st1' & g1' & H1' & Hepoch)%ga_run_S].
    rewrite H1 in H1'. injection H1' as <- <-.
    by eapply ga_epoch_best_score.
  - intros j st_j t' Hj [g_j Hrun_j] Ht'.
    pose proof (ga_run_Permutation _ _ _ _ _ _ _ Hd Hrun_j) as [Hperm _].
    destruct (Hfin t') as (s & Hs & _);
      [by apply (proj1 (Forall_forall _ _) Hperm)|].
    exists s. split; [done|]. rewrite <- (score_of_Ok _ _ Hs). by eapply Hleast.
  - exists k, st_k. split_and!; [lia..| |done|done]. by exists g_k.
Qed.

Lemma best_score_is_minimum_witness :
  @NumberOrder binary64
  ∧ distinct_cities unit_square
  ∧ 2 ≤ length unit_square
  ∧ (∀ t, t ≡ₚ unit_square → finite_length t)
  ∧ ∃ solution score bests avgs worsts g',
      run_genetic_algorithm unit_square 8 3 0x1p-2%float [4; 2; 7; 1; 8; 2; 8]
      = Ok ((Some solution, score, bests, avgs, worsts), g')
      ∧ calculate_route_length solution = Ok score.
Proof.
  split_and!; [exact binary64_order | exact unit_square_distinct | simpl; lia
              | exact unit_square_tours_finite |].
  destruct (@best_score_is_minimum binary64 binary64_order unit_square 8 3
              0x1p-2%float [4; 2; 7; 1; 8; 2; 8] unit_square_distinct
              ltac:(simpl; lia) unit_square_tours_finite ltac:(lia) ltac:(lia))
    as (solution & score & bests & avgs & worsts & g' & Hrun & _ & _ & _ & Hsol).
  destruct Hsol as (k & st & _ & _ & _ & Hlen). eauto 10.
Defined.

(** * Further properties of the program

    What the program does on inputs that the claims above leave out:
    reading the file, failures, and the statistics of a run. *)

(** ** [read_tsp_file] *)

(** X1.  Where no line of the file is [NODE_COORD_SECTION] once stripped,
    [read_tsp_file] returns the empty list, whatever the lines hold: no
    line is converted, so none can fail. *)
Theorem read_tsp_file_no_section {N : Numeric}
    (py_int : string → option Z) (py_float : string → option num)
    (lines : list string) :
  Forall (λ l, str_strip l ≠ "NODE_COORD_SECTION") lines →
  read_tsp_file py_int py_float lines = Ok [].
Proof. apply read_loop_no_header. Qed.

Lemma read_tsp_file_no_section_witness :
  @read_tsp_file exact_Z decimal decimal (sample_header ++ sample_body) = Ok [].
Proof.
  apply read_tsp_file_no_section.
  repeat (constructor; [by vm_compute|]). constructor.
Defined.

(** X2.  [read_tsp_file] stops at the first line that is [EOF] once
    stripped: the lines after it do not change the result, not even where
    they could not be converted. *)
Theorem read_tsp_file_after_EOF {N : Numeric}
    (py_int : string → option Z) (py_float : string → option num)
    (before : list string) (e : string) (after : list string) :
  str_strip e = "EOF" →
  read_tsp_file py_int py_float (before ++ e :: after)
  = read_tsp_file py_int py_float before.
Proof. apply read_loop_EOF. Qed.

Lemma read_tsp_file_after_EOF_witness :
  @read_tsp_file exact_Z decimal decimal
     (["NODE_COORD_SECTION"; "1 0 0"] ++ " EOF " :: ["2 x y"])
  = @read_tsp_file exact_Z decimal decimal ["NODE_COORD_SECTION"; "1 0 0"].
Proof. by apply read_tsp_file_after_EOF. Defined.

(** X3.  A file made of a header without marker lines, the line
    [NODE_COORD_SECTION], and section lines each of which stands for a
    city or for nothing, ended by the end of the file or by an [EOF] line
    and anything after it: [read_tsp_file] returns the cities of the
    section lines, in the order of the lines. *)
Theorem read_tsp_file_section {N : Numeric}
    (py_int : string → option Z) (py_float : string → option num)
    (header : list string) (section : string) (body : list string)
    (ocs : list (option city)) (trailer : list string) :
  Forall (λ l, str_strip l ≠ "NODE_COORD_SECTION" ∧ str_strip l ≠ "EOF") header →
  str_strip section = "NODE_COORD_SECTION" →
  Forall2 (λ line oc,
    str_strip line ≠ "EOF" ∧ line_city py_int py_float line = Ok oc) body ocs →
  (trailer = [] ∨ ∃ e, head trailer = Some e ∧ str_strip e = "EOF") →
  read_tsp_file py_int py_float (header ++ section :: body ++ trailer)
  = Ok (omap id ocs).
Proof.
  intros Hheader Hsection Hbody Htrailer. unfold read_tsp_file.
  rewrite read_loop_header by done. cbn [read_loop]. rewrite Hsection.
  rewrite decide_True by done.
  rewrite (read_loop_section _ _ _ ocs) by done. simpl.
  destruct Htrailer as [->|(e & He & Heof)]; [done|].
  destruct trailer as [|e' post]; simplify_eq/=. by rewrite Heof.
Qed.

Lemma read_tsp_file_section_witness :
  @read_tsp_file exact_Z decimal decimal
     (sample_header ++ "NODE_COORD_SECTION" :: sample_body ++ sample_trailer)
  = Ok [cityZ 1 0 0; cityZ 2 3 4].
Proof.
  apply (@read_tsp_file_section exact_Z decimal decimal sample_header
           "NODE_COORD_SECTION" sample_body
           [Some (cityZ 1 0 0); None; Some (cityZ 2 3 4); None] sample_trailer).
  - repeat (constructor; [by vm_compute|]). constructor.
  - reflexivity.
  - repeat (constructor; [by vm_compute|]). constructor.
  - right. exists "EOF ". by vm_compute.
Defined.

(** X4.  In the coordinate section, a line of three fields of which one
    cannot be converted makes [read_tsp_file] fail with ValueError, whatever
    follows the line; and ValueError is the only way reading the lines
    fails. *)
Theorem read_tsp_file_ValueError {N : Numeric}
    (py_int : string → option Z) (py_float : string → option num) :
  (∀ header section body ocs bad rest e,
     Forall (λ l, str_strip l ≠ "NODE_COORD_SECTION" ∧ str_strip l ≠ "EOF")
       header →
     str_strip section = "NODE_COORD_SECTION" →
     Forall2 (λ line oc,
       str_strip line ≠ "EOF" ∧ line_city py_int py_float line = Ok oc)
       body ocs →
     line_city py_int py_float bad = Raise e →
     read_tsp_file py_int py_float (header ++ section :: body ++ bad :: rest)
     = Raise ValueError)
  ∧ (∀ lines e, read_tsp_file py_int py_float lines = Raise e → e = ValueError).
Proof.
  split.
  - intros header section body ocs bad rest e Hheader Hsection Hbody Hbad.
    unfold read_tsp_file.
    rewrite read_loop_header by done. cbn [read_loop]. rewrite Hsection.
    rewrite decide_True by done.
    rewrite (read_loop_section _ _ _ ocs) by done.
    pose proof (read_loop_bad_line py_int py_float bad rest
                  ([] ++ omap id ocs) e Hbad) as Hfail.
    rewrite Hfail. f_equal. by eapply read_loop_error.
  - intros lines e. apply read_loop_error.
Qed.

Lemma read_tsp_file_ValueError_witness :
  @read_tsp_file exact_Z decimal decimal
     (sample_header ++ "NODE_COORD_SECTION" :: sample_body ++ "5 x 1" :: ["EOF"])
  = Raise ValueError.
Proof.
  eapply (proj1 (@read_tsp_file_ValueError exact_Z decimal decimal)
            sample_header "NODE_COORD_SECTION" sample_body
            [Some (cityZ 1 0 0); None; Some (cityZ 2 3 4); None] "5 x 1" ["EOF"]
            ValueError).
  - repeat (constructor; [by vm_compute|]). constructor.
  - reflexivity.
  - repeat (constructor; [by vm_compute|]). constructor.
  - reflexivity.
Defined.

(** X5.  How a line of the coordinate section is read.  Let the line be
    made of fields separated by whitespace, with whitespace before the
    first and after the last as may be.  [line.split()] gives the fields.
    With a number of fields other than 3 the line stands for nothing and
    is passed over; with 3 fields it stands for the city of the three
    conversions, and reading it fails with ValueError where one of them
    fails.  A line that is not made of exactly one field is no marker
    line. *)
Theorem line_city_fields {N : Numeric}
    (py_int : string → option Z) (py_float : string → option num)
    (fs : list (list ascii * list ascii)) (trail : list ascii) :
  well_formed_fields fs trail →
  let line := fields_line fs trail in
  str_split line = field_words fs
  ∧ (length fs ≠ 3 → line_city py_int py_float line = Ok None)
  ∧ (length fs ≠ 1 →
     str_strip line ≠ "EOF" ∧ str_strip line ≠ "NODE_COORD_SECTION")
  ∧ (∀ a b c, field_words fs = [a; b; c] →
       line_city py_int py_float line
       = match py_int a, py_float b, py_float c with
         | Some city_id, Some x, Some y => Ok (Some (@City N city_id x y))
         | _, _, _ => Raise ValueError
         end).
Proof.
  intros Hwf line.
  pose proof (str_split_fields fs trail Hwf) as Hsplit. fold line in Hsplit.
  assert (line_city py_int py_float line
          = parse_city py_int py_float (field_words fs)) as Hline.
  { unfold line_city. by rewrite str_split_strip, Hsplit. }
  split_and!.
  - done.
  - intros Hlen. rewrite Hline. unfold field_words.
    by destruct fs as [|? [|? [|? [|? ?]]]].
  - intros Hlen.
    split; intros Hmarker%str_strip_marker; rewrite Hsplit in Hmarker;
      apply (f_equal length) in Hmarker; unfold field_words in Hmarker;
      by rewrite length_fmap in Hmarker.
  - intros a b c Hwords. rewrite Hline, Hwords. simpl.
    by repeat case_match.
Qed.

Lemma line_city_fields_witness :
  @line_city exact_Z decimal decimal " 7  12 5 " = Ok (Some (cityZ 7 12 5)).
Proof.
  pose proof (@line_city_fields exact_Z decimal decimal
    [ ([" "], ["7"]); ([" "; " "], ["1"; "2"]); ([" "], ["5"]) ]%char
    [" "%char]) as H.
  destruct H as (_ & _ & _ & Hcity).
  - split; repeat constructor; done.
  - exact (Hcity "7" "12" "5" eq_refl).
Defined.

Section Further.
Context {N : Numeric}.
Local Open Scope num_scope.

(** ** [greedy_algorithm] *)


(** ** [swap_mutation] *)

(** X7.  [swap_mutation], for every mutation probability.  Where the
    number drawn is not below the probability, the route is returned as it
    is.  Where it is below and the route has two cities or more, the
    cities at two different positions are swapped.  It fails exactly when
    the number drawn is below the probability and the route has fewer than
    two cities, and then with ValueError.  So a route it returns is always
    a permutation of the route it was given, of the same length. *)
Theorem swap_mutation_outcomes (route : list city) (mutation_probability : num)
    (g : rng) :
  ((random_value g <? mutation_probability) = false →
   swap_mutation route mutation_probability g = Ok (route, tail g))
  ∧ ((random_value g <? mutation_probability) = true → 2 ≤ length route →
     ∃ i j city_i city_j g',
       i ≠ j ∧ route !! i = Some city_i ∧ route !! j = Some city_j
       ∧ swap_mutation route mutation_probability g
         = Ok (<[j := city_i]> (<[i := city_j]> route), g'))
  ∧ (∀ e, swap_mutation route mutation_probability g = Raise e
          ↔ e = ValueError ∧ length route < 2
            ∧ (random_value g <? mutation_probability) = true)
  ∧ (∀ r g', swap_mutation route mutation_probability g = Ok (r, g') →
       r ≡ₚ route ∧ length r = length route).
Proof.
  unfold random_value. rewrite swap_mutation_eq.
  destruct (num_unit (hd 0 g) <? mutation_probability) eqn:Hdraw.
  - destruct (decide (2 ≤ length route)) as [Hlen|Hlen].
    + destruct (sample_two (length route) (tail g) Hlen)
        as (i & j & g' & -> & Hij & Hi & Hj).
      destruct (lookup_lt_is_Some_2 route i Hi) as [xi Hxi].
      destruct (lookup_lt_is_Some_2 route j Hj) as [xj Hxj].
      assert (swap_items route i j = Ok (<[j := xi]> (<[i := xj]> route)))
        as Hswap by (unfold swap_items; by rewrite Hxj, Hxi).
      rewrite Hswap. split_and!; [done| |split; [done|intros (_ & ? & _); lia]|].
      * intros _ _. by exists i, j, xi, xj, g'.
      * intros r g1 [= <- <-]. split.
        -- by eapply swap_items_Permutation.
        -- by rewrite !length_insert.
    + rewrite random_sample_Raise by (rewrite length_seq; lia).
      split_and!; [done|intros; lia| |done].
      intros e. split; [intros [= <-]; split_and!; [done|lia|done]|].
      by intros (-> & _).
  - split_and!; [done|done| |].
    + intros e. split; [done|]. by intros (_ & _ & ?).
    + by intros r g' [= <- <-].
Qed.

(** ** [create_new_epoch] *)

(** X8.  On every population, a generation that [create_new_epoch]
    returns has as many tours as the population, and every city of every
    tour of it is a city of a tour of the population: a generation neither
    grows nor shrinks, and no city is made up. *)
Theorem create_new_epoch_closed (population : list tour)
    (mutation_probability : num) (g : rng) (new_population : list tour) (g' : rng) :
  create_new_epoch population mutation_probability g = Ok (new_population, g') →
  length new_population = length population
  ∧ ∀ child c, child ∈ new_population → c ∈ child →
      ∃ t, t ∈ population ∧ c ∈ t.
Proof.
  intros Hnew.
  apply (repeatM_Ok (λ child, ∀ c, c ∈ child → ∃ t, t ∈ population ∧ c ∈ t))
    in Hnew as [Hall Hlen].
  - split; [done|]. intros child c Hchild.
    by apply (proj1 (Forall_forall _ _) Hall).
  - intros g0 child g1 Hchild c. by eapply make_child_elem_of.
Qed.

(** ** [tournament_selection] *)

(** X9.  [tournament_selection] fails with ValueError exactly when the
    tournament size is above the population size.  A tour it returns is a
    tour of the population and is not empty, and the tournament size is
    then between 1 and the population size.  It fails with IndexError only
    where the population holds an empty tour. *)
Theorem tournament_selection_member (population : list tour)
    (tournament_size : nat) (g : rng) :
  (tournament_selection population tournament_size g = Raise ValueError
   ↔ length population < tournament_size)
  ∧ (∀ t g', tournament_selection population tournament_size g = Ok (Some t, g') →
       t ∈ population ∧ t ≠ [] ∧ 1 ≤ tournament_size ≤ length population)
  ∧ (tournament_selection population tournament_size g = Raise IndexError →
     [] ∈ population).
Proof.
  split_and!.
  - split.
    + by intros [[_ ?]|[? _]]%tournament_selection_Raise.
    + intros Hk. unfold tournament_selection, bind.
      by rewrite random_sample_Raise.
  - intros t g' Ht. split; [by eapply tournament_selection_elem_of|].
    apply tournament_selection_Ok in Ht as (selected & Hsel & Hr).
    apply random_sample_Ok in Hsel as Hsize. destruct Hsize as [Hsize Hsub].
    apply tournament_loop_Ok in Hr as [Hne Hr].
    destruct (first_min score_of selected (None, num_inf)) as [o m] eqn:Hmin.
    simpl in Hr. subst o.
    apply first_min_None in Hmin as [[? _]|(a & [= <-] & Ha)]; [done|].
    split; [by apply (proj1 (Forall_forall _ _) Hne)|].
    assert (selected ≠ []) by (intros ->; by apply elem_of_nil in Ha).
    destruct (decide (tournament_size ≤ length population)) as [?|Hgt].
    + split; [|done]. destruct selected; [done|]. simpl in Hsize. lia.
    + rewrite random_sample_Raise in Hsel by lia. done.
  - by intros [[? _]|(_ & _ & ?)]%tournament_selection_Raise.
Qed.

(** ** [run_genetic_algorithm] *)

(** X10.  With [epochs = 0], [run_genetic_algorithm] returns, for every
    list of cities and every population size, no solution, the score
    [float('inf')] and three empty statistics. *)
Theorem run_zero_epochs (cities : list city) (initial_population_size : nat)
    (mutation_probability : num) (g : rng) :
  ∃ g', run_genetic_algorithm cities initial_population_size 0
          mutation_probability g
        = Ok ((None, num_inf, [], [], []), g').
Proof.
  destruct (random_population_total cities initial_population_size g)
    as (pop & g' & Hpop & _).
  exists g'. unfold run_genetic_algorithm, ga_run, bind. by rewrite Hpop.
Qed.

(** X11.  The statistics that [run_genetic_algorithm] returns.  Each of
    the three lists has one entry per epoch.  The best and the worst score
    of epoch [k] are the minimum and the maximum of the lengths of the
    tours of the generation that epoch made, and that generation has
    [initial_population_size] tours. *)
Theorem run_statistics (cities : list city) (initial_population_size epochs : nat)
    (mutation_probability : num) (g : rng) solution score bests avgs worsts g' :
  run_genetic_algorithm cities initial_population_size epochs
    mutation_probability g
  = Ok ((solution, score, bests, avgs, worsts), g') →
  length bests = epochs ∧ length avgs = epochs ∧ length worsts = epochs
  ∧ ∀ k, k < epochs →
      ∃ st_k g_k scores b w,
        ga_run cities initial_population_size (S k) mutation_probability g
        = Ok (st_k, g_k)
        ∧ length (population st_k) = initial_population_size
        ∧ route_lengths (population st_k) = Ok scores
        ∧ py_min scores = Ok b ∧ py_max scores = Ok w
        ∧ bests !! k = Some b ∧ worsts !! k = Some w.
Proof.
  intros (st & Hrun & [= -> -> -> -> ->])%run_genetic_algorithm_Ok.
  destruct (ga_run_stats _ _ _ _ _ _ _ Hrun) as (_ & Hb & Ha & Hw & _).
  split_and!; [done..|]. intros k Hk.
  destruct (ga_run_epoch_stats _ _ _ _ _ _ _ k Hrun Hk)
    as (st_k & g_k & scores & b & w & Hrun_k & ? & ? & ? & ? & ? & ?).
  exists st_k, g_k, scores, b, w. split_and!; try done.
  by destruct (ga_run_stats _ _ _ _ _ _ _ Hrun_k) as (? & _).
Qed.

(** X12.  What [run_genetic_algorithm] returns is consistent, for every
    input it returns on, tours of infinite or undefined (NaN) length
    included: in each epoch the worst score is not below the best score;
    the returned score is not above the best score of any epoch, and it is
    the best score of one of the epochs or still [float('inf')]; and
    either there is a solution, its length is exactly the returned score
    and this is below [float('inf')], or there is no solution and the
    returned score is [float('inf')].  This holds for every arithmetic
    with the laws of [NumberOrder], which IEEE 754 has. *)
Theorem run_statistics_order `{!NumberOrder} (cities : list city)
    (initial_population_size epochs : nat) (mutation_probability : num)
    (g : rng) solution score bests avgs worsts g' :
  run_genetic_algorithm cities initial_population_size epochs
    mutation_probability g
  = Ok ((solution, score, bests, avgs, worsts), g') →
  (∀ k b w, bests !! k = Some b → worsts !! k = Some w → (w <? b) = false)
  ∧ (∀ b, b ∈ bests → (b <? score) = false)
  ∧ (score = num_inf ∨ score ∈ bests)
  ∧ match solution with
    | Some t => calculate_route_length t = Ok score ∧ (score <? num_inf) = true
    | None => score = num_inf
    end.
Proof.
  intros (st & Hrun & [= -> -> -> -> ->])%run_genetic_algorithm_Ok.
  destruct (ga_run_stats _ _ _ _ _ _ _ Hrun) as (_ & _ & _ & _ & Hin & Hlaws).
  destruct (Hlaws _) as [Hleast Hworst].
  split_and!; [done..|]. by eapply ga_run_solution.
Qed.

(** X13.  On the empty list of cities, with a population of 7 or more and
    one epoch or more, [run_genetic_algorithm] fails with IndexError: the
    tours are empty, and the first tournament fails on [route[-1]]. *)
Theorem run_no_cities (initial_population_size epochs : nat)
    (mutation_probability : num) (g : rng) :
  7 ≤ initial_population_size → 1 ≤ epochs →
  run_genetic_algorithm [] initial_population_size epochs mutation_probability g
  = Raise IndexError.
Proof.
  intros Hn Hepochs.
  destruct (random_population_total [] initial_population_size g)
    as (pop & g1 & Hpop & Hall & Hlen).
  unfold run_genetic_algorithm, ga_run, bind at 1, bind at 1. rewrite Hpop.
  destruct epochs as [|epochs]; [lia|].
  rewrite ga_epochs_first_fails with (e := IndexError); [done|].
  intros g0. unfold ga_epoch, bind at 1, create_new_epoch. simpl.
  destruct (length pop) as [|n] eqn:Hn'; [lia|]. simpl. unfold bind at 1.
  rewrite make_child_empty_tours; [done|lia|].
  eapply Forall_impl; [done|]. intros t Ht. by apply Permutation_nil_r in Ht.
Qed.

End Further.

Lemma create_new_epoch_closed_witness :
  ∃ new_population g',
    create_new_epoch (replicate 7 two_cities) 0%Z [3; 1; 4; 1; 5]
    = Ok (new_population, g')
    ∧ length new_population = 7.
Proof.
  destruct (create_new_epoch (replicate 7 two_cities) 0%Z [3; 1; 4; 1; 5])
    as [[new_population g']|e] eqn:Hnew; [|by vm_compute in Hnew].
  exists new_population, g'. split; [done|].
  by destruct (create_new_epoch_closed _ _ _ _ _ Hnew).
Defined.

Lemma run_statistics_witness :
  ∃ solution score bests avgs worsts g',
    run_genetic_algorithm two_cities 8 3 0%Z [4; 2; 7; 1; 8; 2; 8]
    = Ok ((solution, score, bests, avgs, worsts), g')
    ∧ length bests = 3 ∧ length avgs = 3 ∧ length worsts = 3.
Proof.
  destruct (run_genetic_algorithm two_cities 8 3 0%Z [4; 2; 7; 1; 8; 2; 8])
    as [[[[[[solution score] bests] avgs] worsts] g']|e] eqn:Hrun;
    [|by vm_compute in Hrun].
  exists solution, score, bests, avgs, worsts, g'. split; [done|].
  by destruct (run_statistics _ _ _ _ _ _ _ _ _ _ _ Hrun) as (? & ? & ? & _).
Defined.

Lemma run_statistics_order_witness :
  @NumberOrder binary64
  ∧ ∃ solution score bests avgs worsts g',
      run_genetic_algorithm unit_square 8 2 0x1p-2%float [1; 6; 1; 8; 0; 3]
      = Ok ((solution, score, bests, avgs, worsts), g')
      ∧ (∀ b, b ∈ bests → (b <? score)%num = false)
      ∧ (score = num_inf ∨ score ∈ bests).
Proof.
  split; [exact binary64_order|].
  destruct (run_genetic_algorithm unit_square 8 2 0x1p-2%float [1; 6; 1; 8; 0; 3])
    as [[[[[[solution score] bests] avgs] worsts] g']|e] eqn:Hrun;
    [|by returns_Ok Hrun].
  exists solution, score, bests, avgs, worsts, g'. split; [done|].
  by destruct (@run_statistics_order binary64 binary64_order _ _ _ _ _ _ _ _ _ _ _
                 Hrun) as (_ & ? & ? & _).
Defined.

Lemma run_no_cities_witness :
  @run_genetic_algorithm exact_Z [] 7 1 0%Z [] = Raise IndexError.
Proof. apply run_no_cities; lia. Defined.
